(** * bmrot: rotating a BMFont descriptor by 90 degrees

    A shallow embedding of the Go program (descriptor data model, [Rotate],
    the [String] dump, [Common.Scale], [LoadDescriptor]) and the properties
    its specification states about it.

    Conventions of the embedding:
    - Go's [int] is a 64-bit two's-complement integer; it is a [Z] here and
      every arithmetic operation of the source is followed by [wrap].
    - Go's [map[K]V] is a [gmap K V].  A [for _, v := range m] loop visits
      the keys of [m] in an order the language leaves open, so every loop
      takes the visiting order as an explicit argument, constrained by
      [range_order].
    - every struct lives in a module of its name, with carrier [t], so that
      the field [d.Common.ScaleW] of the source reads
      [Common.ScaleW (Descriptor.Common d)]. *)

From Stdlib Require Import Ascii.
From stdpp Require Import gmap strings pretty list fin_maps.

Local Open Scope Z_scope.

(** ** Go's [int] *)

Definition int_bits : Z := 64.
Definition int_min : Z := - 2 ^ (int_bits - 1).
Definition int_max : Z := 2 ^ (int_bits - 1) - 1.

Definition is_int (z : Z) : Prop := int_min <= z <= int_max.

(** Reduction of a mathematical integer to the value a Go [int] holds. *)
Definition wrap (z : Z) : Z :=
  (z - int_min) mod 2 ^ int_bits + int_min.

Definition int_add (a b : Z) : Z := wrap (a + b).
Definition int_sub (a b : Z) : Z := wrap (a - b).

Definition boolToInt (b : bool) : Z := if b then 1 else 0.

(** ** Iterating over a Go map *)

(** [range_order m order]: [order] is one of the orders in which a [range]
    loop may visit [m], that is, it lists every key of [m] exactly once. *)
Definition range_order {K V : Type} `{Countable K}
    (m : gmap K V) (order : list K) : Prop :=
  order ≡ₚ (map_to_list m).*1.

(** ** Strings of the dump *)

Definition nl : string := String "010"%char EmptyString.
Definition dq : string := String "034"%char EmptyString.

(** [%d] of [fmt.Sprintf]. *)
Definition fmt_d (z : Z) : string := pretty z.

(** ** Data model *)

Module Point.
Record t : Type := Pt { X : Z; Y : Z }.
Definition Add (p q : t) : t := Pt (int_add (X p) (X q)) (int_add (Y p) (Y q)).
End Point.

Module Rectangle.
Record t : Type := mk { Min : Point.t; Max : Point.t }.
End Rectangle.

Module Padding.
Record t : Type := mk { Up : Z; Right : Z; Down : Z; Left : Z }.
End Padding.

Module Spacing.
Record t : Type := mk { Horizontal : Z; Vertical : Z }.
End Spacing.

Module ChannelInfo.
Definition t : Type := Z.
Definition Glyph : t := 0.
Definition Outline : t := 1.
Definition GlyphAndOutline : t := 2.
Definition Zero : t := 3.
Definition One : t := 4.
End ChannelInfo.

Module Channel.
Definition t : Type := Z.
Definition Blue : t := 1.
Definition Green : t := 2.
Definition Red : t := 4.
Definition Alpha : t := 8.
Definition All : t := 15.
End Channel.

Module Info.
Record t : Type := mk {
  Face : string;
  Size : Z;
  Bold : bool;
  Italic : bool;
  Charset : string;
  Unicode : bool;
  StretchH : Z;
  Smooth : bool;
  AA : Z;
  Padding : Padding.t;
  Spacing : Spacing.t;
  Outline : Z
}.

Definition String (i : t) : string :=
  "info face=" +:+ dq +:+ Face i +:+ dq
  +:+ " size=" +:+ fmt_d (Size i)
  +:+ " bold=" +:+ fmt_d (boolToInt (Bold i))
  +:+ " italic=" +:+ fmt_d (boolToInt (Italic i))
  +:+ " charset=" +:+ dq +:+ Charset i +:+ dq
  +:+ " unicode=" +:+ fmt_d (boolToInt (Unicode i))
  +:+ " stretchH=" +:+ fmt_d (StretchH i)
  +:+ " smooth=" +:+ fmt_d (boolToInt (Smooth i))
  +:+ " aa=" +:+ fmt_d (AA i)
  +:+ " padding=" +:+ fmt_d (Padding.Up (Padding i))
  +:+ "," +:+ fmt_d (Padding.Right (Padding i))
  +:+ "," +:+ fmt_d (Padding.Down (Padding i))
  +:+ "," +:+ fmt_d (Padding.Left (Padding i))
  +:+ " spacing=" +:+ fmt_d (Spacing.Horizontal (Spacing i))
  +:+ "," +:+ fmt_d (Spacing.Vertical (Spacing i))
  +:+ " outline=" +:+ fmt_d (Outline i).
End Info.

Module Common.
Record t : Type := mk {
  LineHeight : Z;
  Base : Z;
  ScaleW : Z;
  ScaleH : Z;
  Packed : bool;
  AlphaChannel : ChannelInfo.t;
  RedChannel : ChannelInfo.t;
  GreenChannel : ChannelInfo.t;
  BlueChannel : ChannelInfo.t
}.

Definition Scale (c : t) : Point.t := Point.Pt (ScaleH c) (ScaleH c).
End Common.

Module Page.
Record t : Type := mk { ID : Z; File : string }.

Definition String (p : t) : string :=
  "page id=" +:+ fmt_d (ID p) +:+ " file=" +:+ dq +:+ File p +:+ dq.
End Page.

Module Char.
Record t : Type := mk {
  ID : Z;
  X : Z;
  Y : Z;
  Width : Z;
  Height : Z;
  XOffset : Z;
  YOffset : Z;
  XAdvance : Z;
  Page : Z;
  Channel : Channel.t
}.

Definition String (c : t) : string :=
  "char id=" +:+ fmt_d (ID c)
  +:+ " x=" +:+ fmt_d (X c)
  +:+ " y=" +:+ fmt_d (Y c)
  +:+ " width=" +:+ fmt_d (Width c)
  +:+ " height=" +:+ fmt_d (Height c)
  +:+ " xoffset=" +:+ fmt_d (XOffset c)
  +:+ " yoffset=" +:+ fmt_d (YOffset c)
  +:+ " xadvance=" +:+ fmt_d (XAdvance c)
  +:+ " page=" +:+ fmt_d (Page c)
  +:+ " chnl=" +:+ fmt_d (Channel c).

Definition Pos (c : t) : Point.t := Point.Pt (X c) (Y c).
Definition Size (c : t) : Point.t := Point.Pt (Width c) (Height c).
Definition Bounds (c : t) : Rectangle.t :=
  Rectangle.mk (Pos c) (Point.Add (Pos c) (Size c)).
Definition Offset (c : t) : Point.t := Point.Pt (XOffset c) (YOffset c).
End Char.

Module CharPair.
Record t : Type := mk { First : Z; Second : Z }.

#[global] Instance eq_dec : EqDecision t.
Proof. solve_decision. Defined.

Definition to_pair (p : t) : Z * Z := (First p, Second p).
Definition of_pair (q : Z * Z) : t := mk q.1 q.2.

#[global] Instance countable : Countable t :=
  inj_countable' to_pair of_pair (λ p, match p with mk _ _ => eq_refl end).
End CharPair.

Module Kerning.
Record t : Type := mk { Amount : Z }.
End Kerning.

Module Descriptor.
Record t : Type := mk {
  Info : Info.t;
  Common : Common.t;
  Pages : gmap Z Page.t;
  Chars : gmap Z Char.t;
  Kerning : gmap CharPair.t Kerning.t
}.

(** The glyph mapping is keyed by the glyph's own id: the parser stores every
    [char] record under its [id], and [Rotate] writes back under
    [char.ID]. *)
Definition keyed_by_id (chars : gmap Z Char.t) : Prop :=
  ∀ k char, chars !! k = Some char → Char.ID char = k.

(** One [pages += fmt.Sprintf("%s\n", ...)] per visited entry. *)
Definition range_lines {V : Type} (line : V → string)
    (m : gmap Z V) (order : list Z) (acc : string) : string :=
  foldl (λ acc k,
           match m !! k with
           | Some v => acc +:+ (line v +:+ nl)
           | None => acc
           end) acc order.

Definition printCommon (c : Common.t) (p : gmap Z Page.t) : string :=
  "common lineHeight=" +:+ fmt_d (Common.LineHeight c)
  +:+ " base=" +:+ fmt_d (Common.Base c)
  +:+ " scaleW=" +:+ fmt_d (Common.ScaleW c)
  +:+ " scaleH=" +:+ fmt_d (Common.ScaleH c)
  +:+ " pages=" +:+ fmt_d (Z.of_nat (size p))
  +:+ " packed=" +:+ fmt_d (boolToInt (Common.Packed c))
  +:+ " alphaChnl=" +:+ fmt_d (Common.AlphaChannel c)
  +:+ " redChnl=" +:+ fmt_d (Common.RedChannel c)
  +:+ " greenChnl=" +:+ fmt_d (Common.GreenChannel c)
  +:+ " blueChnl=" +:+ fmt_d (Common.BlueChannel c).

(** [String porder corder d]: the dump of [d] when the loop over [d.Pages]
    visits the keys in the order [porder] and the loop over [d.Chars] in the
    order [corder]. *)
Definition String (porder corder : list Z) (d : t) : string :=
  let pages := range_lines Page.String (Pages d) porder EmptyString in
  let chars :=
    range_lines Char.String (Chars d) corder
      ("chars count=" +:+ fmt_d (Z.of_nat (size (Chars d))) +:+ nl) in
  Info.String (Info d) +:+ nl +:+ printCommon (Common d) (Pages d) +:+ nl
  +:+ pages +:+ chars.

(** The body of the loop of [Rotate] on one glyph; [scaleW] is
    [d.Common.ScaleW] as the loop reads it, after the swap. *)
Definition Rotate_char (scaleW : Z) (char : Char.t) : Char.t :=
  let x := int_sub (int_sub scaleW (Char.Y char)) (Char.Height char) in
  let y := Char.X char in
  let xoffset := Char.YOffset char in
  let yoffset := Char.XOffset char in
  let width := Char.Height char in
  let height := Char.Width char in
  let xadvance := int_add width xoffset in
  Char.mk (Char.ID char) x y width height xoffset yoffset xadvance
          (Char.Page char) (Char.Channel char).

(** The loop of [Rotate].  The keys are visited in the order [order]; the
    glyph is read from the live map when its key is reached and the rotated
    glyph is stored under its [ID].  An entry the loop itself creates under a
    key outside [order] is not visited. *)
Fixpoint Rotate_range (scaleW : Z) (order : list Z)
    (chars : gmap Z Char.t) (lh : Z) : gmap Z Char.t * Z :=
  match order with
  | [] => (chars, lh)
  | k :: order' =>
      match chars !! k with
      | None => Rotate_range scaleW order' chars lh
      | Some char =>
          let char' := Rotate_char scaleW char in
          let lh' := if lh <? Char.Height char' then Char.Height char' else lh in
          Rotate_range scaleW order' (<[Char.ID char' := char']> chars) lh'
      end
  end.

(** [Rotate order d]: the descriptor after [d.Rotate()], when the loop over
    [d.Chars] visits the keys in the order [order]. *)
Definition Rotate (order : list Z) (d : t) : t :=
  let i := Info d in
  let c := Common d in
  let padding :=
    Padding.mk (Padding.Left (Info.Padding i)) (Padding.Up (Info.Padding i))
               (Padding.Right (Info.Padding i)) (Padding.Down (Info.Padding i)) in
  let spacing :=
    Spacing.mk (Spacing.Vertical (Info.Spacing i))
               (Spacing.Horizontal (Info.Spacing i)) in
  let scaleW := Common.ScaleH c in
  let scaleH := Common.ScaleW c in
  let r := Rotate_range scaleW order (Chars d) 0 in
  let lh := r.2 in
  mk (Info.mk (Info.Face i) (Info.Size i) (Info.Bold i) (Info.Italic i)
              (Info.Charset i) (Info.Unicode i) (Info.StretchH i)
              (Info.Smooth i) (Info.AA i) padding spacing (Info.Outline i))
     (Common.mk lh lh scaleW scaleH (Common.Packed c)
                (Common.AlphaChannel c) (Common.RedChannel c)
                (Common.GreenChannel c) (Common.BlueChannel c))
     (Pages d) r.1 (Kerning d).
End Descriptor.

(** ** Errors *)

(** The values of Go's [error] the program meets: a failure of the file
    system ([os.Open], [Close]) and the parser's malformed-value error, which
    names the descriptor, the line, the tag and the key. *)
Inductive error : Type :=
| IOError (msg : string)
| MalformedValue (name : string) (line : nat) (tag key : string).

(** ** The text parser

    [parseDescriptor] is called by [LoadDescriptor] and [ReadDescriptor] but
    its source file is not part of the sources at hand; the definitions of
    this module follow sections 4.1 and 7 of the specification. *)

Module Parse.

(** Modelled from the spec: the value of a [key=value] attribute of the
    missing parser, an unquoted token or a double-quoted string; a quoted
    string that the line ends before closing is kept as [Unterminated]. *)
Inductive token : Type :=
| Bare (s : string)
| Quoted (s : string)
| Unterminated (s : string).

(** Modelled from the spec: the whitespace that separates the attributes of
    a line in the missing parser (space, tab, carriage return). *)
Definition is_space (c : ascii) : bool :=
  (c =? " ")%char || (c =? "009")%char || (c =? "013")%char.

(** Modelled from the spec: the missing parser reads its stream as a
    sequence of lines; the stream is cut at every line feed. *)
Fixpoint split_lines (s : string) : list string :=
  match s with
  | EmptyString => [EmptyString]
  | String c s' =>
      if (c =? "010")%char then EmptyString :: split_lines s'
      else match split_lines s' with
           | l :: ls => String c l :: ls
           | [] => [String c EmptyString]
           end
  end.

(** Modelled from the spec: leading whitespace before the tag keyword of the
    missing parser's line is dropped. *)
Fixpoint skip_spaces (s : string) : string :=
  match s with
  | String c s' => if is_space c then skip_spaces s' else s
  | EmptyString => s
  end.

(** Modelled from the spec: the bare tag keyword of the missing parser, the
    longest run of characters up to the next whitespace, and the rest of the
    line. *)
Fixpoint word (s : string) : string * string :=
  match s with
  | EmptyString => (EmptyString, EmptyString)
  | String c s' =>
      if is_space c then (EmptyString, s)
      else (String c (word s').1, (word s').2)
  end.

(** Modelled from the spec: where the missing parser's attribute scanner
    stands inside a line. *)
Inductive lex_state : Type :=
| Between
| InKey (key : string)
| AfterEq (key : string)
| InBare (key val : string)
| InQuoted (key val : string).

(** Modelled from the spec: the missing parser's scanner gathers a key or a
    value one character at a time. *)
Definition snoc (s : string) (c : ascii) : string := s +:+ String c EmptyString.

(** Modelled from the spec: the attribute scanner of the missing parser.  The
    rest of a line is a sequence of [key=value] attributes separated by
    whitespace; a value that starts with a double quote runs to the closing
    double quote, any other value to the next whitespace.  A word without [=]
    is no attribute and is dropped. *)
Fixpoint lex_attrs (st : lex_state) (s : string) : list (string * token) :=
  match s with
  | EmptyString =>
      match st with
      | Between | InKey _ => []
      | AfterEq k => [(k, Bare EmptyString)]
      | InBare k v => [(k, Bare v)]
      | InQuoted k v => [(k, Unterminated v)]
      end
  | String c s' =>
      match st with
      | Between =>
          if is_space c then lex_attrs Between s'
          else if (c =? "=")%char then lex_attrs (AfterEq EmptyString) s'
          else lex_attrs (InKey (String c EmptyString)) s'
      | InKey k =>
          if is_space c then lex_attrs Between s'
          else if (c =? "=")%char then lex_attrs (AfterEq k) s'
          else lex_attrs (InKey (snoc k c)) s'
      | AfterEq k =>
          if is_space c then (k, Bare EmptyString) :: lex_attrs Between s'
          else if (c =? "034")%char then lex_attrs (InQuoted k EmptyString) s'
          else lex_attrs (InBare k (String c EmptyString)) s'
      | InBare k v =>
          if is_space c then (k, Bare v) :: lex_attrs Between s'
          else lex_attrs (InBare k (snoc v c)) s'
      | InQuoted k v =>
          if (c =? "034")%char then (k, Quoted v) :: lex_attrs Between s'
          else lex_attrs (InQuoted k (snoc v c)) s'
      end
  end.

(** Modelled from the spec: a line of the missing parser is its tag keyword
    followed by its attributes. *)
Definition lex_line (ln : string) : string * list (string * token) :=
  let w := word (skip_spaces ln) in
  (w.1, lex_attrs Between w.2).

(** Modelled from the spec: decimal digits of an integer token of the missing
    parser. *)
Definition digit (c : ascii) : option Z :=
  let n := Z.of_N (N_of_ascii c) in
  if (48 <=? n) && (n <=? 57) then Some (n - 48) else None.

(** Modelled from the spec: the value of a run of decimal digits of the
    missing parser, most significant digit first. *)
Fixpoint digits (s : string) (acc : Z) : option Z :=
  match s with
  | EmptyString => Some acc
  | String c s' =>
      match digit c with
      | Some d => digits s' (10 * acc + d)
      | None => None
      end
  end.

(** Modelled from the spec: the integer a token of the missing parser
    denotes: an optional sign and at least one decimal digit, with a value an
    [int] can hold; any other token is malformed. *)
Definition decode_int (s : string) : option Z :=
  let signed :=
    match s with
    | String "-"%char s' => (true, s')
    | String "+"%char s' => (false, s')
    | _ => (false, s)
    end in
  match signed.2 with
  | EmptyString => None
  | body =>
      match digits body 0 with
      | Some z =>
          let z' := if signed.1 then - z else z in
          if (int_min <=? z') && (z' <=? int_max) then Some z' else None
      | None => None
      end
  end.

(** Modelled from the spec: the pieces of a comma-separated list token of the
    missing parser ([padding], [spacing]). *)
Fixpoint split_commas (s : string) : list string :=
  match s with
  | EmptyString => [EmptyString]
  | String c s' =>
      if (c =? ",")%char then EmptyString :: split_commas s'
      else match split_commas s' with
           | l :: ls => String c l :: ls
           | [] => [String c EmptyString]
           end
  end.

(** Modelled from the spec: a list token of the missing parser holds exactly
    [n] integers (4 for [padding], 2 for [spacing]). *)
Definition decode_ints (n : nat) (s : string) : option (list Z) :=
  match mapM decode_int (split_commas s) with
  | Some l => if decide (length l = n) then Some l else None
  | None => None
  end.
(** Modelled from the spec: the types of value the attributes of the missing
    parser take: an integer, a [0]/[1] flag, a double-quoted string, a list
    of [n] comma-separated integers. *)
Inductive kind : Type :=
| KInt
| KBool
| KString
| KInts (n : nat).

(** Modelled from the spec: a decoded attribute value of the missing
    parser. *)
Inductive value : Type :=
| VInt (z : Z)
| VBool (b : bool)
| VStr (s : string)
| VInts (l : list Z).

(** Modelled from the spec: decoding of one attribute value by the missing
    parser.  An integer, a flag or an integer list is an unquoted token, a
    string is double-quoted; a token that does not decode is malformed, and
    so is every unterminated quoted string. *)
Definition decode (k : kind) (tok : token) : option value :=
  match k, tok with
  | KInt, Bare s => VInt <$> decode_int s
  | KBool, Bare s =>
      if String.eqb s "0" then Some (VBool false)
      else if String.eqb s "1" then Some (VBool true) else None
  | KInts n, Bare s => VInts <$> decode_ints n s
  | KString, Quoted s => Some (VStr s)
  | _, _ => None
  end.

(** Modelled from the spec: the table lookup by which the missing parser
    recognises a tag or a key; the first entry of the name is taken. *)
Fixpoint assoc {A : Type} (k : string) (l : list (string * A)) : option A :=
  match l with
  | [] => None
  | (k', a) :: l' => if String.eqb k k' then Some a else assoc k l'
  end.

(** Modelled from the spec: the tags the missing parser knows and, for each,
    its keys and their types; every other tag and every other key is
    ignored. *)
Definition tags : list (string * list (string * kind)) :=
  [ ("info",
     [ ("face", KString); ("size", KInt); ("bold", KBool); ("italic", KBool);
       ("charset", KString); ("unicode", KBool); ("stretchH", KInt);
       ("smooth", KBool); ("aa", KInt); ("padding", KInts 4);
       ("spacing", KInts 2); ("outline", KInt) ]);
    ("common",
     [ ("lineHeight", KInt); ("base", KInt); ("scaleW", KInt);
       ("scaleH", KInt); ("pages", KInt); ("packed", KBool);
       ("alphaChnl", KInt); ("redChnl", KInt); ("greenChnl", KInt);
       ("blueChnl", KInt) ]);
    ("page", [ ("id", KInt); ("file", KString) ]);
    ("chars", [ ("count", KInt) ]);
    ("char",
     [ ("id", KInt); ("x", KInt); ("y", KInt); ("width", KInt);
       ("height", KInt); ("xoffset", KInt); ("yoffset", KInt);
       ("xadvance", KInt); ("page", KInt); ("chnl", KInt) ]);
    ("kernings", [ ("count", KInt) ]);
    ("kerning", [ ("first", KInt); ("second", KInt); ("amount", KInt) ]) ].

(** Modelled from the spec: the missing parser decodes the attributes of a
    line from left to right; the first one that is malformed ends the parse
    and is named by its key, an unknown key is skipped. *)
Fixpoint decode_attrs (keys : list (string * kind))
    (attrs : list (string * token)) : list (string * value) + string :=
  match attrs with
  | [] => inl []
  | (key, tok) :: rest =>
      match tok with
      | Unterminated _ => inr key
      | _ =>
          match assoc key keys with
          | None => decode_attrs keys rest
          | Some k =>
              match decode k tok with
              | None => inr key
              | Some v =>
                  match decode_attrs keys rest with
                  | inl vs => inl ((key, v) :: vs)
                  | inr bad => inr bad
                  end
              end
          end
      end
  end.

(** Modelled from the spec: the field of [Info] each key of the missing
    parser's [info] tag populates; [padding] is up, right, down, left and
    [spacing] is horizontal, vertical. *)
Definition set_info (i : Info.t) (kv : string * value) : Info.t :=
  let 'Info.mk face size bold italic charset unicode stretchH smooth aa
               padding spacing outline := i in
  let key := kv.1 in
  match kv.2 with
  | VStr s =>
      if String.eqb key "face" then
        Info.mk s size bold italic charset unicode stretchH smooth aa
                padding spacing outline
      else if String.eqb key "charset" then
        Info.mk face size bold italic s unicode stretchH smooth aa
                padding spacing outline
      else i
  | VInt z =>
      if String.eqb key "size" then
        Info.mk face z bold italic charset unicode stretchH smooth aa
                padding spacing outline
      else if String.eqb key "stretchH" then
        Info.mk face size bold italic charset unicode z smooth aa
                padding spacing outline
      else if String.eqb key "aa" then
        Info.mk face size bold italic charset unicode stretchH smooth z
                padding spacing outline
      else if String.eqb key "outline" then
        Info.mk face size bold italic charset unicode stretchH smooth aa
                padding spacing z
      else i
  | VBool b =>
      if String.eqb key "bold" then
        Info.mk face size b italic charset unicode stretchH smooth aa
                padding spacing outline
      else if String.eqb key "italic" then
        Info.mk face size bold b charset unicode stretchH smooth aa
                padding spacing outline
      else if String.eqb key "unicode" then
        Info.mk face size bold italic charset b stretchH smooth aa
                padding spacing outline
      else if String.eqb key "smooth" then
        Info.mk face size bold italic charset unicode stretchH b aa
                padding spacing outline
      else i
  | VInts [pu; pr; pd; pl] =>
      if String.eqb key "padding" then
        Info.mk face size bold italic charset unicode stretchH smooth aa
                (Padding.mk pu pr pd pl) spacing outline
      else i
  | VInts [sh; sv] =>
      if String.eqb key "spacing" then
        Info.mk face size bold italic charset unicode stretchH smooth aa
                padding (Spacing.mk sh sv) outline
      else i
  | VInts _ => i
  end.

(** Modelled from the spec: the field of [Common] each key of the missing
    parser's [common] tag populates; the channel codes are kept as they are
    read, and [pages] is not kept. *)
Definition set_common (c : Common.t) (kv : string * value) : Common.t :=
  let 'Common.mk lineHeight base scaleW scaleH packed alpha red green blue :=
    c in
  let key := kv.1 in
  match kv.2 with
  | VInt z =>
      if String.eqb key "lineHeight" then
        Common.mk z base scaleW scaleH packed alpha red green blue
      else if String.eqb key "base" then
        Common.mk lineHeight z scaleW scaleH packed alpha red green blue
      else if String.eqb key "scaleW" then
        Common.mk lineHeight base z scaleH packed alpha red green blue
      else if String.eqb key "scaleH" then
        Common.mk lineHeight base scaleW z packed alpha red green blue
      else if String.eqb key "alphaChnl" then
        Common.mk lineHeight base scaleW scaleH packed z red green blue
      else if String.eqb key "redChnl" then
        Common.mk lineHeight base scaleW scaleH packed alpha z green blue
      else if String.eqb key "greenChnl" then
        Common.mk lineHeight base scaleW scaleH packed alpha red z blue
      else if String.eqb key "blueChnl" then
        Common.mk lineHeight base scaleW scaleH packed alpha red green z
      else c
  | VBool b =>
      if String.eqb key "packed" then
        Common.mk lineHeight base scaleW scaleH b alpha red green blue
      else c
  | _ => c
  end.

(** Modelled from the spec: the field of [Page] each key of the missing
    parser's [page] tag populates. *)
Definition set_page (p : Page.t) (kv : string * value) : Page.t :=
  match kv.2 with
  | VInt z => if String.eqb kv.1 "id" then Page.mk z (Page.File p) else p
  | VStr s => if String.eqb kv.1 "file" then Page.mk (Page.ID p) s else p
  | _ => p
  end.

(** Modelled from the spec: the field of [Char] each key of the missing
    parser's [char] tag populates; [chnl] is mapped directly onto the channel
    flags. *)
Definition set_char (c : Char.t) (kv : string * value) : Char.t :=
  let 'Char.mk id x y width height xoffset yoffset xadvance page chnl := c in
  let key := kv.1 in
  match kv.2 with
  | VInt z =>
      if String.eqb key "id" then
        Char.mk z x y width height xoffset yoffset xadvance page chnl
      else if String.eqb key "x" then
        Char.mk id z y width height xoffset yoffset xadvance page chnl
      else if String.eqb key "y" then
        Char.mk id x z width height xoffset yoffset xadvance page chnl
      else if String.eqb key "width" then
        Char.mk id x y z height xoffset yoffset xadvance page chnl
      else if String.eqb key "height" then
        Char.mk id x y width z xoffset yoffset xadvance page chnl
      else if String.eqb key "xoffset" then
        Char.mk id x y width height z yoffset xadvance page chnl
      else if String.eqb key "yoffset" then
        Char.mk id x y width height xoffset z xadvance page chnl
      else if String.eqb key "xadvance" then
        Char.mk id x y width height xoffset yoffset z page chnl
      else if String.eqb key "page" then
        Char.mk id x y width height xoffset yoffset xadvance z chnl
      else if String.eqb key "chnl" then
        Char.mk id x y width height xoffset yoffset xadvance page z
      else c
  | _ => c
  end.

(** Modelled from the spec: the pair and the amount the keys of the missing
    parser's [kerning] tag populate. *)
Definition set_kerning (k : CharPair.t * Kerning.t)
    (kv : string * value) : CharPair.t * Kerning.t :=
  match kv.2 with
  | VInt z =>
      if String.eqb kv.1 "first" then
        (CharPair.mk z (CharPair.Second k.1), k.2)
      else if String.eqb kv.1 "second" then
        (CharPair.mk (CharPair.First k.1) z, k.2)
      else if String.eqb kv.1 "amount" then (k.1, Kerning.mk z)
      else k
  | _ => k
  end.

(** Modelled from the spec: the zero-valued records the missing parser fills
    in, so that an attribute that is absent leaves a zero. *)
Definition zero_info : Info.t :=
  Info.mk EmptyString 0 false false EmptyString false 0 false 0
          (Padding.mk 0 0 0 0) (Spacing.mk 0 0) 0.
Definition zero_common : Common.t := Common.mk 0 0 0 0 false 0 0 0 0.
Definition zero_page : Page.t := Page.mk 0 EmptyString.
Definition zero_char : Char.t := Char.mk 0 0 0 0 0 0 0 0 0 0.
Definition zero_kerning : CharPair.t * Kerning.t :=
  (CharPair.mk 0 0, Kerning.mk 0).

(** Modelled from the spec: the descriptor the missing parser starts from,
    zero-valued records and empty mappings. *)
Definition zero_descriptor : Descriptor.t :=
  Descriptor.mk zero_info zero_common ∅ ∅ ∅.

(** Modelled from the spec: what a decoded line of the missing parser does
    to the descriptor.  [info] and [common] populate the singletons; [page],
    [char] and [kerning] insert or overwrite the entry of their key; the
    counts of [chars] and [kernings] are declarations and are not kept. *)
Definition store (tag : string) (vs : list (string * value))
    (d : Descriptor.t) : Descriptor.t :=
  let 'Descriptor.mk info common pages chars kerning := d in
  if String.eqb tag "info" then
    Descriptor.mk (foldl set_info info vs) common pages chars kerning
  else if String.eqb tag "common" then
    Descriptor.mk info (foldl set_common common vs) pages chars kerning
  else if String.eqb tag "page" then
    let p := foldl set_page zero_page vs in
    Descriptor.mk info common (<[Page.ID p := p]> pages) chars kerning
  else if String.eqb tag "char" then
    let c := foldl set_char zero_char vs in
    Descriptor.mk info common pages (<[Char.ID c := c]> chars) kerning
  else if String.eqb tag "kerning" then
    let k := foldl set_kerning zero_kerning vs in
    Descriptor.mk info common pages chars (<[k.1 := k.2]> kerning)
  else d.

(** Modelled from the spec: one line of the missing parser.  A line with an
    unknown tag (an empty line too) is ignored; a line with a known tag is
    decoded and stored, or fails with the malformed-value error that names
    the line, the tag and the key. *)
Definition parse_line (name : string) (n : nat) (ln : string)
    (d : Descriptor.t) : Descriptor.t + error :=
  let l := lex_line ln in
  match assoc l.1 tags with
  | None => inl d
  | Some keys =>
      match decode_attrs keys l.2 with
      | inl vs => inl (store l.1 vs d)
      | inr key => inr (MalformedValue name n l.1 key)
      end
  end.

(** Modelled from the spec: the missing parser makes one pass over the lines;
    the first error ends the parse, no partial descriptor is kept. *)
Fixpoint parse_lines (name : string) (n : nat) (lines : list string)
    (d : Descriptor.t) : Descriptor.t + error :=
  match lines with
  | [] => inl d
  | ln :: rest =>
      match parse_line name n ln d with
      | inl d' => parse_lines name (S n) rest d'
      | inr e => inr e
      end
  end.
End Parse.

(** Modelled from the spec: [parseDescriptor], whose source is missing.  The
    stream is the text [r]; the result is Go's pair [(d, err)], a descriptor
    and no error or no descriptor and the error; lines are numbered
    from 1. *)
Definition parseDescriptor (name : string) (r : string)
    : option Descriptor.t * option error :=
  match Parse.parse_lines name 1 (Parse.split_lines r) Parse.zero_descriptor with
  | inl d => (Some d, None)
  | inr e => (None, Some e)
  end.

(** [closeChecked(c, &err)]: [cErr] is what [c.Close()] returns, the result is
    the new value of [*err]. *)
Definition closeChecked (cErr : option error) (err : option error)
    : option error :=
  match cErr, err with
  | Some e, None => Some e
  | _, _ => err
  end.

(** An open file: the text it delivers and what closing it returns. *)
Record File : Type := mkFile { content : string; close : option error }.

Section Load.
(** [os.Open] and [filepath.Base] belong to Go's library and are taken as
    they come. *)
Variable os_Open : string → error + File.
Variable filepath_Base : string → string.

Definition LoadDescriptor (path : string)
    : option Descriptor.t * option error :=
  match os_Open path with
  | inl err => (None, Some err)
  | inr f =>
      let r := parseDescriptor (filepath_Base path) (content f) in
      (r.1, closeChecked (close f) r.2)
  end.
End Load.

Definition ReadDescriptor (r : string) : option Descriptor.t * option error :=
  parseDescriptor "bmfont" r.

(** ** Descriptors used as examples *)

Definition plain_info : Info.t :=
  Info.mk "Mono" 12 false false EmptyString true 100 true 1
          (Padding.mk 1 2 3 4) (Spacing.mk 5 7) 0.

Definition plain_common : Common.t := Common.mk 14 11 256 128 false 0 0 0 0.

(** The glyph of the specification's example: [x=10 y=20 width=30 height=5
    xoffset=1 yoffset=2]. *)
Definition glyph_A : Char.t := Char.mk 65 10 20 30 5 1 2 9 0 15.
Definition glyph_B : Char.t := Char.mk 66 40 20 12 5 0 2 13 0 15.

(** A glyph whose width is negative. *)
Definition glyph_neg : Char.t := Char.mk 65 10 20 (-1) 5 1 2 9 0 15.

Definition font_A : Descriptor.t :=
  Descriptor.mk plain_info plain_common {[ 0 := Page.mk 0 "a.png" ]}
                {[ 65 := glyph_A ]}
                {[ CharPair.mk 65 66 := Kerning.mk (-2) ]}.

Definition font_AB : Descriptor.t :=
  Descriptor.mk plain_info plain_common {[ 0 := Page.mk 0 "a.png" ]}
                (<[ 65 := glyph_A ]> {[ 66 := glyph_B ]}) ∅.

Definition font_neg : Descriptor.t :=
  Descriptor.mk plain_info plain_common ∅ {[ 65 := glyph_neg ]} ∅.

(** A descriptor text whose [char] line gives [x] a token that is no
    integer, and a file system whose every path holds a given text. *)
Definition bad_stream : string := "char id=65 x=abc y=3".

Definition one_file (r : string) (path : string) : error + File :=
  inr (mkFile r None).

(** ** What the specification says of the line metrics

    [is_max_height chars h]: [h] is the greatest height of a glyph of
    [chars]. *)
Definition is_max_height (chars : gmap Z Char.t) (h : Z) : Prop :=
  (∃ k c, chars !! k = Some c ∧ Char.Height c = h) ∧
  (∀ k c, chars !! k = Some c → Char.Height c ≤ h).

(** ** What the specification says of the dump

    [unlines ls] is the text made of the lines [ls], each ended by a line
    feed; [lines_of line m order] are the lines a loop over [m] that visits
    the keys in the order [order] emits. *)
Definition unlines (ls : list string) : string :=
  foldr (λ l s, l +:+ nl +:+ s) EmptyString ls.

Definition lines_of {V : Type} (line : V → string)
    (m : gmap Z V) (order : list Z) : list string :=
  omap (λ k, line <$> m !! k) order.

(** ** What the specification says of malformed input

    [holds_malformed_integer ln]: the line [ln] has a known tag and gives one
    of the integer-valued keys of that tag an unquoted token that is no
    integer. *)
Definition holds_malformed_integer (ln : string) : Prop :=
  ∃ keys key s,
    Parse.assoc (Parse.lex_line ln).1 Parse.tags = Some keys ∧
    (key, Parse.Bare s) ∈ (Parse.lex_line ln).2 ∧
    Parse.assoc key keys = Some Parse.KInt ∧
    Parse.decode_int s = None.

(** [attr_ok keys a]: the attribute [a] of a line whose tag has the keys
    [keys] decodes: its string is terminated and, when its key is known, its
    token has the type of the key. *)
Definition attr_ok (keys : list (string * Parse.kind))
    (a : string * Parse.token) : Prop :=
  match a.2 with
  | Parse.Unterminated _ => False
  | _ =>
      match Parse.assoc a.1 keys with
      | None => True
      | Some k => is_Some (Parse.decode k a.2)
      end
  end.

(** [line_ok ln]: every attribute of [ln] decodes, or the tag is unknown. *)
Definition line_ok (ln : string) : Prop :=
  ∀ keys, Parse.assoc (Parse.lex_line ln).1 Parse.tags = Some keys →
          Forall (attr_ok keys) (Parse.lex_line ln).2.

(** [line_fails_at ln tag key]: [ln] has the known tag [tag], and [key] is
    the key of its first attribute that does not decode. *)
Definition line_fails_at (ln : string) (tag key : string) : Prop :=
  ∃ keys pre tok post,
    (Parse.lex_line ln).1 = tag ∧
    Parse.assoc tag Parse.tags = Some keys ∧
    (Parse.lex_line ln).2 = pre ++ (key, tok) :: post ∧
    Forall (attr_ok keys) pre ∧
    ¬ attr_ok keys (key, tok).

(** ** The command

    What a run of the command leaves behind: the exit code, the text written
    to the standard output and the error handed to [log.Fatal], or a run-time
    panic. *)
Inductive outcome : Type :=
| Exit (code : Z) (stdout : string) (logged : option error)
| Panic.

Section Main.
Variable os_Open : string → error + File.
Variable filepath_Base : string → string.

(** [fmt.Printf("%s\n", desc)]: the text written, when the loops of
    [desc.String()] visit the pages in the order [porder] and the glyphs in
    the order [corder]. *)
Definition printDescriptor (porder corder : list Z) (desc : Descriptor.t)
    : string :=
  Descriptor.String porder corder desc +:+ nl.

(** [main], run with [os.Args = args]; [rorder] is the order in which the
    loop of [Rotate] visits the glyphs.  A [nil] descriptor returned without
    an error makes [desc.Rotate()] panic. *)
Definition main (args : list string) (rorder porder corder : list Z)
    : outcome :=
  if decide (length args < 2)%nat then
    Exit 1 ("Usage: bmrot <filename>" +:+ nl) None
  else
    match args !! 1%nat with
    | None => Panic
    | Some filename =>
        match LoadDescriptor os_Open filepath_Base filename with
        | (_, Some err) => Exit 1 EmptyString (Some err)
        | (Some desc, None) =>
            Exit 0 (printDescriptor porder corder
                      (Descriptor.Rotate rorder desc)) None
        | (None, None) => Panic
        end
    end.
End Main.

(** ** Characters of a line of the dump *)

Fixpoint has_char (c : ascii) (s : string) : bool :=
  match s with
  | EmptyString => false
  | String c' s' => (c =? c')%char || has_char c s'
  end.

(** ** Glyph boxes on the page

    [in_canvas c char]: the box of the glyph, [char.Bounds()], has sides of
    length 0 or more and lies on the page of [c], which spans
    [0 .. scaleW] by [0 .. scaleH]. *)
Definition in_canvas (c : Common.t) (char : Char.t) : Prop :=
  is_int (Common.ScaleW c) ∧ is_int (Common.ScaleH c) ∧
  0 ≤ Char.X char ∧ 0 ≤ Char.Y char ∧
  0 ≤ Char.Width char ∧ 0 ≤ Char.Height char ∧
  Char.X char + Char.Width char ≤ Common.ScaleW c ∧
  Char.Y char + Char.Height char ≤ Common.ScaleH c.

(** [boxes_disjoint a b]: the boxes of the glyphs [a] and [b] share no
    pixel: one lies left of, right of, above or below the other. *)
Definition boxes_disjoint (a b : Char.t) : Prop :=
  Char.X a + Char.Width a ≤ Char.X b ∨
  Char.X b + Char.Width b ≤ Char.X a ∨
  Char.Y a + Char.Height a ≤ Char.Y b ∨
  Char.Y b + Char.Height b ≤ Char.Y a.

(** The glyph [char] as four rotations leave it: the advance recomputed from
    width and offset, everything else as it was. *)
Definition with_recomputed_advance (char : Char.t) : Char.t :=
  Char.mk (Char.ID char) (Char.X char) (Char.Y char)
          (Char.Width char) (Char.Height char)
          (Char.XOffset char) (Char.YOffset char)
          (int_add (Char.Width char) (Char.XOffset char))
          (Char.Page char) (Char.Channel char).

(** * Properties *)

(** ** Go's [int] *)

Lemma wrap_is_int z : is_int (wrap z).
Proof.
  unfold is_int, wrap, int_max, int_min, int_bits.
  pose proof (Z.mod_pos_bound (z - - 2 ^ (64 - 1)) (2 ^ 64)). lia.
Qed.

Lemma wrap_id z : is_int z → wrap z = z.
Proof.
  unfold is_int, wrap, int_max, int_min, int_bits. intros Hz.
  rewrite Z.mod_small; lia.
Qed.

Lemma wrap_sub_l a b : wrap (wrap a - b) = wrap (a - b).
Proof.
  unfold wrap. f_equal.
  replace ((a - int_min) mod 2 ^ int_bits + int_min - b - int_min)
    with ((a - int_min) mod 2 ^ int_bits - b) by lia.
  rewrite Zminus_mod_idemp_l. f_equal. lia.
Qed.

Lemma int_sub_sub a b c : int_sub (int_sub a b) c = wrap (a - b - c).
Proof. unfold int_sub. apply wrap_sub_l. Qed.

(** ** [range] loops *)

Lemma range_order_NoDup {K V : Type} `{Countable K}
    (m : gmap K V) (order : list K) :
  range_order m order → NoDup order.
Proof.
  unfold range_order. intros ->. apply NoDup_fst_map_to_list.
Qed.

Lemma elem_of_keys {K V : Type} `{Countable K} (m : gmap K V) (k : K) :
  k ∈ (map_to_list m).*1 ↔ is_Some (m !! k).
Proof.
  rewrite list_elem_of_fmap. split.
  - intros [[k' v] [-> Hkv]]. apply elem_of_map_to_list in Hkv. by exists v.
  - intros [v Hv]. exists (k, v). split; [done|]. by apply elem_of_map_to_list.
Qed.

Lemma range_order_elem {K V : Type} `{Countable K}
    (m : gmap K V) (order : list K) (k : K) :
  range_order m order → k ∈ order ↔ is_Some (m !! k).
Proof.
  unfold range_order. intros ->. apply elem_of_keys.
Qed.

Lemma range_order_intro {K V : Type} `{Countable K}
    (m : gmap K V) (order : list K) :
  NoDup order → (∀ k, k ∈ order ↔ is_Some (m !! k)) → range_order m order.
Proof.
  intros Hnd Hel. apply NoDup_Permutation; [done|apply NoDup_fst_map_to_list|].
  intros k. by rewrite Hel, elem_of_keys.
Qed.

Lemma range_order_singleton {V : Type} (k : Z) (v : V) :
  range_order ({[ k := v ]} : gmap Z V) [k].
Proof. unfold range_order. by rewrite map_to_list_singleton. Qed.

Lemma range_order_empty {K V : Type} `{Countable K} (order : list K) :
  range_order (∅ : gmap K V) order → order = [].
Proof.
  unfold range_order. rewrite map_to_list_empty. apply Permutation_nil_r.
Qed.

(** ** The loop of [Rotate] *)

Section rotate_loop.
Import Descriptor.
Variable scaleW : Z.

Lemma Rotate_char_ID char : Char.ID (Rotate_char scaleW char) = Char.ID char.
Proof. reflexivity. Qed.

Lemma keyed_by_id_insert chars char :
  keyed_by_id chars → keyed_by_id (<[Char.ID char := char]> chars).
Proof.
  intros Hk k c. rewrite lookup_insert. case_decide as Hid.
  - intros [= <-]. done.
  - apply Hk.
Qed.

Lemma keyed_by_id_fmap chars :
  keyed_by_id chars → keyed_by_id (Rotate_char scaleW <$> chars).
Proof.
  intros Hk k c. rewrite lookup_fmap.
  destruct (chars !! k) as [c0|] eqn:Hc0; simpl; [|done].
  intros [= <-]. rewrite Rotate_char_ID. by apply Hk.
Qed.

(** Every visited glyph is rotated once, every other one is left alone. *)
Lemma Rotate_range_lookup order : ∀ chars lh k,
  keyed_by_id chars → NoDup order →
  (Rotate_range scaleW order chars lh).1 !! k =
    if decide (k ∈ order) then Rotate_char scaleW <$> chars !! k
    else chars !! k.
Proof.
  induction order as [|a order IH]; intros chars lh k Hk Hnd;
    cbn [Rotate_range].
  - rewrite decide_False; [done|]. apply not_elem_of_nil.
  - apply NoDup_cons in Hnd as [Ha Hnd].
    destruct (chars !! a) as [char|] eqn:Hchar.
    + assert (Char.ID char = a) as Hid by by apply Hk.
      rewrite IH; [|by apply keyed_by_id_insert|done].
      rewrite Rotate_char_ID, Hid.
      destruct (decide (k = a)) as [->|Hne].
      * rewrite decide_False by done. rewrite decide_True by left.
        by rewrite lookup_insert_eq, Hchar.
      * rewrite lookup_insert_ne by done.
        destruct (decide (k ∈ order)) as [Hin|Hin].
        -- rewrite decide_True by by right. done.
        -- rewrite decide_False; [done|]. rewrite elem_of_cons. tauto.
    + rewrite IH by done.
      destruct (decide (k = a)) as [->|Hne].
      * rewrite decide_False by done. rewrite decide_True by left.
        by rewrite Hchar.
      * destruct (decide (k ∈ order)) as [Hin|Hin].
        -- rewrite decide_True by by right. done.
        -- rewrite decide_False; [done|]. rewrite elem_of_cons. tauto.
Qed.

(** The running maximum [lh] never decreases, bounds the width of every
    visited glyph, and is the initial value or the width of a visited
    glyph. *)
Lemma Rotate_range_lh order : ∀ chars lh,
  keyed_by_id chars → NoDup order →
  lh ≤ (Rotate_range scaleW order chars lh).2 ∧
  (∀ k char, k ∈ order → chars !! k = Some char →
     Char.Width char ≤ (Rotate_range scaleW order chars lh).2) ∧
  ((Rotate_range scaleW order chars lh).2 = lh ∨
   ∃ k char, k ∈ order ∧ chars !! k = Some char ∧
     Char.Width char = (Rotate_range scaleW order chars lh).2).
Proof.
  induction order as [|a order IH]; intros chars lh Hk Hnd;
    cbn [Rotate_range snd].
  - split; [lia|]. split; [|by left].
    intros k char Hin. by apply not_elem_of_nil in Hin.
  - apply NoDup_cons in Hnd as [Ha Hnd].
    destruct (chars !! a) as [char|] eqn:Hchar.
    + assert (Char.ID char = a) as Hid by by apply Hk.
      set (lh1 := if lh <? Char.Width char then Char.Width char else lh).
      assert (lh ≤ lh1 ∧ Char.Width char ≤ lh1 ∧
              (lh1 = lh ∨ lh1 = Char.Width char)) as (Hl1 & Hl2 & Hl3).
      { unfold lh1. destruct (Z.ltb_spec lh (Char.Width char)); lia. }
      destruct (IH (<[a := Rotate_char scaleW char]> chars) lh1)
        as (H1 & H2 & H3); [|done|].
      { rewrite <- Hid, <- (Rotate_char_ID char). by apply keyed_by_id_insert. }
      assert (∀ k, k ∈ order →
                (<[a := Rotate_char scaleW char]> chars) !! k = chars !! k)
        as Hsame.
      { intros k Hin. apply lookup_insert_ne. intros ->. done. }
      change (Char.ID (Rotate_char scaleW char)) with (Char.ID char).
      change (Char.Height (Rotate_char scaleW char)) with (Char.Width char).
      rewrite Hid. fold lh1.
      split; [lia|]. split.
      * intros k c Hin Hc. apply elem_of_cons in Hin as [->|Hin].
        -- rewrite Hchar in Hc. injection Hc as <-. lia.
        -- apply (H2 k c Hin). by rewrite Hsame.
      * destruct H3 as [H3|(k & c & Hin & Hc & Hw)].
        -- destruct Hl3 as [Hl3|Hl3].
           ++ left. lia.
           ++ right. exists a, char. split; [left|]. split; [done|lia].
        -- right. exists k, c. split; [by right|].
           split; [|done]. by rewrite <- Hsame.
    + destruct (IH chars lh Hk Hnd) as (H1 & H2 & H3).
      split; [done|]. split.
      * intros k c Hin Hc. apply elem_of_cons in Hin as [->|Hin].
        -- by rewrite Hchar in Hc.
        -- by apply (H2 k c).
      * destruct H3 as [H3|(k & c & Hin & Hc & Hw)]; [by left|].
        right. exists k, c. split; [by right|done].
Qed.
End rotate_loop.

(** When the glyph mapping is keyed by id, the loop of [Rotate] rotates every
    glyph exactly once, whatever the order of the visit. *)
Lemma Rotate_Chars order d :
  Descriptor.keyed_by_id (Descriptor.Chars d) →
  range_order (Descriptor.Chars d) order →
  Descriptor.Chars (Descriptor.Rotate order d) =
    Descriptor.Rotate_char (Common.ScaleH (Descriptor.Common d))
      <$> Descriptor.Chars d.
Proof.
  intros Hk Ho. apply map_eq. intros k. simpl.
  rewrite Rotate_range_lookup by eauto using range_order_NoDup.
  rewrite lookup_fmap. case_decide as Hin; [done|].
  rewrite (range_order_elem _ _ k Ho) in Hin.
  destruct (Descriptor.Chars d !! k) eqn:E; [|done].
  destruct Hin. by eexists.
Qed.

Lemma Rotate_keyed order d :
  Descriptor.keyed_by_id (Descriptor.Chars d) →
  range_order (Descriptor.Chars d) order →
  Descriptor.keyed_by_id (Descriptor.Chars (Descriptor.Rotate order d)).
Proof.
  intros Hk Ho. rewrite Rotate_Chars by done. by apply keyed_by_id_fmap.
Qed.

Lemma keyed_by_id_singleton char :
  Descriptor.keyed_by_id {[ Char.ID char := char ]}.
Proof.
  intros k c. rewrite lookup_singleton_Some. by intros [<- <-].
Qed.

(** ** The rotation *)

(** C1: for a descriptor whose glyph mapping is keyed by glyph id, [Rotate]
    turns every glyph [char] into a glyph [char'], stored under the same key,
    with [x' = scaleW' - y - height] where [scaleW'] is the canvas width
    after the swap (the old [scaleH]), [y' = x], [width' = height],
    [height' = width], [xoffset' = yoffset], [yoffset' = xoffset] and
    [xadvance' = width' + xoffset'], the old advance being dropped.  The
    arithmetic is that of Go's [int]; it is the exact difference and sum
    whenever these fit an [int].  For [scaleW=256], [scaleH=128] and the
    glyph [x=10 y=20 width=30 height=5 xoffset=1 yoffset=2] the result is
    [x=103 y=10 width=5 height=30 xoffset=2 yoffset=1 xadvance=7]. *)
Theorem Rotate_glyph order d k char :
  Descriptor.keyed_by_id (Descriptor.Chars d) →
  range_order (Descriptor.Chars d) order →
  Descriptor.Chars d !! k = Some char →
  ∃ char',
    Descriptor.Chars (Descriptor.Rotate order d) !! k = Some char' ∧
    Common.ScaleW (Descriptor.Common (Descriptor.Rotate order d)) =
      Common.ScaleH (Descriptor.Common d) ∧
    Char.X char' =
      wrap (Common.ScaleW (Descriptor.Common (Descriptor.Rotate order d))
            - Char.Y char - Char.Height char) ∧
    (is_int (Common.ScaleH (Descriptor.Common d)
             - Char.Y char - Char.Height char) →
     Char.X char' =
       Common.ScaleH (Descriptor.Common d) - Char.Y char - Char.Height char) ∧
    Char.Y char' = Char.X char ∧
    Char.Width char' = Char.Height char ∧
    Char.Height char' = Char.Width char ∧
    Char.XOffset char' = Char.YOffset char ∧
    Char.YOffset char' = Char.XOffset char ∧
    Char.XAdvance char' = wrap (Char.Width char' + Char.XOffset char') ∧
    (is_int (Char.Width char' + Char.XOffset char') →
     Char.XAdvance char' = Char.Width char' + Char.XOffset char') ∧
    (Common.ScaleW (Descriptor.Common d) = 256 →
     Common.ScaleH (Descriptor.Common d) = 128 →
     Char.X char = 10 → Char.Y char = 20 →
     Char.Width char = 30 → Char.Height char = 5 →
     Char.XOffset char = 1 → Char.YOffset char = 2 →
     Char.X char' = 103 ∧ Char.Y char' = 10 ∧
     Char.Width char' = 5 ∧ Char.Height char' = 30 ∧
     Char.XOffset char' = 2 ∧ Char.YOffset char' = 1 ∧
     Char.XAdvance char' = 7).
Proof.
  intros Hk Ho Hchar.
  exists (Descriptor.Rotate_char (Common.ScaleH (Descriptor.Common d)) char).
  split.
  { rewrite Rotate_Chars by done. by rewrite lookup_fmap, Hchar. }
  split; [reflexivity|].
  cbn [Descriptor.Rotate Descriptor.Common Common.ScaleW
       Descriptor.Rotate_char Char.X Char.Y Char.Width Char.Height
       Char.XOffset Char.YOffset Char.XAdvance].
  rewrite int_sub_sub. unfold int_add.
  split_and!; try reflexivity.
  - apply wrap_id.
  - apply wrap_id.
  - intros _ -> -> -> -> -> -> ->. done.
Qed.

Lemma Rotate_glyph_witness :
  ∃ char',
    Descriptor.Chars (Descriptor.Rotate [65] font_A) !! 65 = Some char' ∧
    Char.X char' = 103 ∧ Char.Y char' = 10 ∧
    Char.Width char' = 5 ∧ Char.Height char' = 30 ∧
    Char.XOffset char' = 2 ∧ Char.YOffset char' = 1 ∧
    Char.XAdvance char' = 7.
Proof.
  destruct (Rotate_glyph [65] font_A 65 glyph_A
              (keyed_by_id_singleton glyph_A)
              (range_order_singleton 65 glyph_A)
              (lookup_singleton_eq 65 glyph_A))
    as (char' & Hlook & _ & _ & _ & _ & _ & _ & _ & _ & _ & _ & Hex).
  exists char'. split; [exact Hlook|].
  apply Hex; reflexivity.
Defined.

(** C3: [Rotate] turns the padding clockwise: the new up is the old left,
    the new right the old up, the new down the old right, the new left the
    old down; the padding [up:1 right:2 down:3 left:4] becomes
    [up:4 right:1 down:2 left:3]. *)
Theorem Rotate_padding :
  (∀ order d,
     let p := Info.Padding (Descriptor.Info d) in
     let p' := Info.Padding (Descriptor.Info (Descriptor.Rotate order d)) in
     Padding.Up p' = Padding.Left p ∧ Padding.Right p' = Padding.Up p ∧
     Padding.Down p' = Padding.Right p ∧ Padding.Left p' = Padding.Down p) ∧
  (∀ order face size bold italic charset unicode stretchH smooth aa spacing
     outline common pages chars kerning,
     Info.Padding (Descriptor.Info (Descriptor.Rotate order
       (Descriptor.mk
          (Info.mk face size bold italic charset unicode stretchH smooth aa
                   (Padding.mk 1 2 3 4) spacing outline)
          common pages chars kerning)))
     = Padding.mk 4 1 2 3).
Proof. split; intros; repeat split. Qed.

(** C4: [Rotate] swaps the two components of the spacing and swaps [scaleW]
    with [scaleH]; the page of [scaleW:256 scaleH:128] becomes
    [scaleW:128 scaleH:256]. *)
Theorem Rotate_spacing_scale :
  (∀ order d,
     let s := Info.Spacing (Descriptor.Info d) in
     let s' := Info.Spacing (Descriptor.Info (Descriptor.Rotate order d)) in
     let c := Descriptor.Common d in
     let c' := Descriptor.Common (Descriptor.Rotate order d) in
     Spacing.Horizontal s' = Spacing.Vertical s ∧
     Spacing.Vertical s' = Spacing.Horizontal s ∧
     Common.ScaleW c' = Common.ScaleH c ∧
     Common.ScaleH c' = Common.ScaleW c) ∧
  (∀ order info lineHeight base packed alpha red green blue pages chars
     kerning,
     let c' := Descriptor.Common (Descriptor.Rotate order
       (Descriptor.mk info
          (Common.mk lineHeight base 256 128 packed alpha red green blue)
          pages chars kerning)) in
     Common.ScaleW c' = 128 ∧ Common.ScaleH c' = 256).
Proof. split; intros; repeat split. Qed.

Lemma Rotate_LineHeight order d :
  Common.LineHeight (Descriptor.Common (Descriptor.Rotate order d)) =
    (Descriptor.Rotate_range (Common.ScaleH (Descriptor.Common d)) order
       (Descriptor.Chars d) 0).2.
Proof. reflexivity. Qed.

(** C2, as the code has it: after [Rotate], [lineHeight] and [base] are both
    the greatest of 0 and the heights of the rotated glyphs, which are the
    widths of the glyphs before the rotation.  It is the greatest rotated
    height as soon as one glyph has a width of 0 or more, and 0 when there is
    no glyph. *)
Theorem Rotate_line_metrics order d :
  Descriptor.keyed_by_id (Descriptor.Chars d) →
  range_order (Descriptor.Chars d) order →
  let d' := Descriptor.Rotate order d in
  let lh := Common.LineHeight (Descriptor.Common d') in
  Common.Base (Descriptor.Common d') = lh ∧
  0 ≤ lh ∧
  (∀ k char', Descriptor.Chars d' !! k = Some char' → Char.Height char' ≤ lh) ∧
  (∀ k char, Descriptor.Chars d !! k = Some char → Char.Width char ≤ lh) ∧
  (lh = 0 ∨ is_max_height (Descriptor.Chars d') lh) ∧
  (Descriptor.Chars d = ∅ → lh = 0) ∧
  ((∃ k char, Descriptor.Chars d !! k = Some char ∧ 0 ≤ Char.Width char) →
   is_max_height (Descriptor.Chars d') lh ∧
   ∃ k char, Descriptor.Chars d !! k = Some char ∧ Char.Width char = lh).
Proof.
  intros Hk Ho d' lh.
  pose proof (range_order_NoDup _ _ Ho) as Hnd.
  destruct (Rotate_range_lh (Common.ScaleH (Descriptor.Common d)) order
              (Descriptor.Chars d) 0 Hk Hnd) as (H0 & Hub & Hatt).
  rewrite <- Rotate_LineHeight in H0, Hub, Hatt. fold d' lh in H0, Hub, Hatt.
  assert (∀ k char, Descriptor.Chars d !! k = Some char → Char.Width char ≤ lh)
    as Hub'.
  { intros k char Hc. apply (Hub k char); [|done].
    apply (range_order_elem _ _ k Ho). by eexists. }
  assert (∀ k char', Descriptor.Chars d' !! k = Some char' →
            ∃ char, Descriptor.Chars d !! k = Some char ∧
                    Char.Height char' = Char.Width char) as Hback.
  { intros k char'. unfold d'. rewrite Rotate_Chars, lookup_fmap by done.
    destruct (Descriptor.Chars d !! k) as [char|]; [|done].
    intros [= <-]. by exists char. }
  assert (∀ k char, Descriptor.Chars d !! k = Some char →
            ∃ char', Descriptor.Chars d' !! k = Some char' ∧
                     Char.Height char' = Char.Width char) as Hforth.
  { intros k char Hc. unfold d'. rewrite Rotate_Chars, lookup_fmap, Hc by done.
    by eexists. }
  assert (∀ k char', Descriptor.Chars d' !! k = Some char' →
            Char.Height char' ≤ lh) as Hub''.
  { intros k char' Hc'. destruct (Hback k char' Hc') as (char & Hc & ->).
    by apply (Hub' k). }
  assert (∀ k char, Descriptor.Chars d !! k = Some char →
            Char.Width char = lh → is_max_height (Descriptor.Chars d') lh)
    as Hmax.
  { intros k char Hc Hw. split; [|done].
    destruct (Hforth k char Hc) as (char' & Hc' & Hh).
    exists k, char'. split; [done|lia]. }
  split_and!; try done.
  - destruct Hatt as [->|(k & char & _ & Hc & Hw)]; [by left|].
    right. by apply (Hmax k char).
  - intros Hempty. destruct Hatt as [->|(k & char & _ & Hc & _)]; [done|].
    by rewrite Hempty, lookup_empty in Hc.
  - intros (k & char & Hc & Hpos).
    destruct Hatt as [Hz|(k1 & char1 & _ & Hc1 & Hw1)].
    + assert (Char.Width char = lh) as Hw.
      { pose proof (Hub' k char Hc). lia. }
      split; [by apply (Hmax k char)|by exists k, char].
    + split; [by apply (Hmax k1 char1)|by exists k1, char1].
Qed.

Lemma Rotate_line_metrics_witness :
  let d' := Descriptor.Rotate [65] font_A in
  Common.Base (Descriptor.Common d') = 30 ∧
  Common.LineHeight (Descriptor.Common d') = 30 ∧
  is_max_height (Descriptor.Chars d') 30.
Proof.
  pose proof (Rotate_line_metrics [65] font_A
                (keyed_by_id_singleton glyph_A)
                (range_order_singleton 65 glyph_A)) as H.
  cbv zeta in *. destruct H as (Hb & _ & _ & _ & _ & _ & Hmax).
  split; [exact Hb|]. split; [reflexivity|].
  apply Hmax. exists 65, glyph_A. split; [reflexivity|]. simpl. lia.
Defined.

(** C2, as the specification states it, fails on a font whose only glyph has
    the width -1: the greatest rotated height is -1, yet [lineHeight] and
    [base] are 0. *)
Lemma Rotate_line_metrics_negative_width :
  let d' := Descriptor.Rotate [65] font_neg in
  Descriptor.keyed_by_id (Descriptor.Chars font_neg) ∧
  range_order (Descriptor.Chars font_neg) [65] ∧
  Descriptor.Chars font_neg ≠ ∅ ∧
  is_max_height (Descriptor.Chars d') (-1) ∧
  Common.LineHeight (Descriptor.Common d') = 0 ∧
  Common.Base (Descriptor.Common d') = 0 ∧
  ¬ is_max_height (Descriptor.Chars d')
      (Common.LineHeight (Descriptor.Common d')).
Proof.
  assert (Descriptor.Chars (Descriptor.Rotate [65] font_neg) =
          {[ 65 := Descriptor.Rotate_char 128 glyph_neg ]}) as Hchars.
  { rewrite Rotate_Chars.
    - apply map_fmap_singleton.
    - apply (keyed_by_id_singleton glyph_neg).
    - apply range_order_singleton. }
  cbv zeta. rewrite Hchars.
  split; [apply (keyed_by_id_singleton glyph_neg)|].
  split; [apply range_order_singleton|].
  split; [apply insert_non_empty|].
  split.
  { split.
    - exists 65, (Descriptor.Rotate_char 128 glyph_neg).
      split; [apply lookup_singleton_eq|reflexivity].
    - intros k c. rewrite lookup_singleton_Some. intros [_ <-]. done. }
  split; [reflexivity|]. split; [reflexivity|].
  intros [(k & c & Hc & Hh) _].
  change (Common.LineHeight (Descriptor.Common (Descriptor.Rotate [65] font_neg)))
    with 0 in Hh.
  apply lookup_singleton_Some in Hc as [_ <-]. discriminate Hh.
Qed.

(** C5: [Rotate] leaves the kerning mapping and the page mapping as they
    are, keeps every field of [Info] but the padding and the spacing, and
    every field of [Common] but [scaleW], [scaleH], [lineHeight] and [base];
    in a descriptor keyed by glyph id it keeps the set of glyph keys and
    every glyph's id, page and channel. *)
Theorem Rotate_frame :
  (∀ order d,
     let d' := Descriptor.Rotate order d in
     Descriptor.Kerning d' = Descriptor.Kerning d ∧
     Descriptor.Pages d' = Descriptor.Pages d ∧
     Info.Face (Descriptor.Info d') = Info.Face (Descriptor.Info d) ∧
     Info.Size (Descriptor.Info d') = Info.Size (Descriptor.Info d) ∧
     Info.Bold (Descriptor.Info d') = Info.Bold (Descriptor.Info d) ∧
     Info.Italic (Descriptor.Info d') = Info.Italic (Descriptor.Info d) ∧
     Info.Charset (Descriptor.Info d') = Info.Charset (Descriptor.Info d) ∧
     Info.Unicode (Descriptor.Info d') = Info.Unicode (Descriptor.Info d) ∧
     Info.StretchH (Descriptor.Info d') = Info.StretchH (Descriptor.Info d) ∧
     Info.Smooth (Descriptor.Info d') = Info.Smooth (Descriptor.Info d) ∧
     Info.AA (Descriptor.Info d') = Info.AA (Descriptor.Info d) ∧
     Info.Outline (Descriptor.Info d') = Info.Outline (Descriptor.Info d) ∧
     Common.Packed (Descriptor.Common d') =
       Common.Packed (Descriptor.Common d) ∧
     Common.AlphaChannel (Descriptor.Common d') =
       Common.AlphaChannel (Descriptor.Common d) ∧
     Common.RedChannel (Descriptor.Common d') =
       Common.RedChannel (Descriptor.Common d) ∧
     Common.GreenChannel (Descriptor.Common d') =
       Common.GreenChannel (Descriptor.Common d) ∧
     Common.BlueChannel (Descriptor.Common d') =
       Common.BlueChannel (Descriptor.Common d)) ∧
  (∀ order d,
     Descriptor.keyed_by_id (Descriptor.Chars d) →
     range_order (Descriptor.Chars d) order →
     let d' := Descriptor.Rotate order d in
     dom (Descriptor.Chars d') = dom (Descriptor.Chars d) ∧
     ∀ k char, Descriptor.Chars d !! k = Some char →
       ∃ char', Descriptor.Chars d' !! k = Some char' ∧
         Char.ID char' = Char.ID char ∧
         Char.Page char' = Char.Page char ∧
         Char.Channel char' = Char.Channel char).
Proof.
  split.
  - intros order d d'. split_and!; reflexivity.
  - intros order d Hk Ho d'. unfold d'. rewrite Rotate_Chars by done. split.
    + apply dom_fmap_L.
    + intros k char Hc. rewrite lookup_fmap, Hc. by eexists.
Qed.

Lemma Rotate_frame_witness :
  dom (Descriptor.Chars (Descriptor.Rotate [65] font_A)) =
    dom (Descriptor.Chars font_A) ∧
  ∃ char', Descriptor.Chars (Descriptor.Rotate [65] font_A) !! 65 = Some char' ∧
    Char.ID char' = 65 ∧ Char.Page char' = 0 ∧ Char.Channel char' = 15.
Proof.
  destruct (proj2 Rotate_frame [65] font_A
              (keyed_by_id_singleton glyph_A)
              (range_order_singleton 65 glyph_A)) as [Hdom Hglyph].
  split; [exact Hdom|].
  exact (Hglyph 65 glyph_A (lookup_singleton_eq 65 glyph_A)).
Defined.

Lemma range_order_Rotate_font_A :
  range_order (Descriptor.Chars (Descriptor.Rotate [65] font_A)) [65].
Proof.
  rewrite Rotate_Chars.
  - unfold font_A, Descriptor.Chars. rewrite map_fmap_singleton.
    apply range_order_singleton.
  - apply (keyed_by_id_singleton glyph_A).
  - apply range_order_singleton.
Qed.

(** C6: rotating twice is not the identity, it is the half turn.  Some
    descriptor differs from its double rotation; and for every descriptor
    keyed by glyph id, after two rotations [scaleW] and [scaleH] are the
    original ones, every glyph sits at [x'' = scaleW - x - width] and
    [y'' = scaleH - y - height] in Go's [int] arithmetic, the padding has
    turned by two clockwise steps, and every glyph's [xadvance] is its
    original width plus its original [xoffset]. *)
Theorem Rotate_twice :
  (∃ order d,
     Descriptor.keyed_by_id (Descriptor.Chars d) ∧
     range_order (Descriptor.Chars d) order ∧
     range_order (Descriptor.Chars (Descriptor.Rotate order d)) order ∧
     Descriptor.Rotate order (Descriptor.Rotate order d) ≠ d) ∧
  (∀ order1 order2 d,
     Descriptor.keyed_by_id (Descriptor.Chars d) →
     range_order (Descriptor.Chars d) order1 →
     range_order (Descriptor.Chars (Descriptor.Rotate order1 d)) order2 →
     let d'' := Descriptor.Rotate order2 (Descriptor.Rotate order1 d) in
     let p := Info.Padding (Descriptor.Info d) in
     let scaleW := Common.ScaleW (Descriptor.Common d) in
     let scaleH := Common.ScaleH (Descriptor.Common d) in
     Common.ScaleW (Descriptor.Common d'') = scaleW ∧
     Common.ScaleH (Descriptor.Common d'') = scaleH ∧
     Info.Padding (Descriptor.Info d'') =
       Padding.mk (Padding.Down p) (Padding.Left p)
                  (Padding.Up p) (Padding.Right p) ∧
     Info.Spacing (Descriptor.Info d'') = Info.Spacing (Descriptor.Info d) ∧
     ∀ k char, Descriptor.Chars d !! k = Some char →
       ∃ char'', Descriptor.Chars d'' !! k = Some char'' ∧
         Char.X char'' = wrap (scaleW - Char.X char - Char.Width char) ∧
         Char.Y char'' = wrap (scaleH - Char.Y char - Char.Height char) ∧
         Char.Width char'' = Char.Width char ∧
         Char.Height char'' = Char.Height char ∧
         Char.XOffset char'' = Char.XOffset char ∧
         Char.YOffset char'' = Char.YOffset char ∧
         Char.XAdvance char'' = wrap (Char.Width char + Char.XOffset char)).
Proof.
  split.
  - exists [65], font_A.
    split; [apply (keyed_by_id_singleton glyph_A)|].
    split; [apply range_order_singleton|].
    split; [apply range_order_Rotate_font_A|].
    intros Heq.
    apply (f_equal (λ d, Padding.Up (Info.Padding (Descriptor.Info d)))) in Heq.
    discriminate Heq.
  - intros order1 order2 d Hk Ho1 Ho2 d'' p scaleW scaleH.
    split; [reflexivity|]. split; [reflexivity|]. split; [reflexivity|].
    split; [unfold d''; simpl; by destruct (Info.Spacing (Descriptor.Info d))|].
    intros k char Hc. unfold d''.
    rewrite Rotate_Chars by eauto using Rotate_keyed.
    rewrite Rotate_Chars by done.
    rewrite !lookup_fmap, Hc. eexists. split; [reflexivity|].
    cbn [Descriptor.Rotate Descriptor.Common Common.ScaleW Common.ScaleH
         Descriptor.Rotate_char Char.X Char.Y Char.Width Char.Height
         Char.XOffset Char.YOffset Char.XAdvance].
    rewrite !int_sub_sub. split_and!; reflexivity.
Qed.

Lemma Rotate_twice_witness :
  ∃ char'',
    Descriptor.Chars (Descriptor.Rotate [65] (Descriptor.Rotate [65] font_A))
      !! 65 = Some char'' ∧
    Char.X char'' = 216 ∧ Char.Y char'' = 103 ∧ Char.XAdvance char'' = 31.
Proof.
  destruct (proj2 Rotate_twice [65] [65] font_A
              (keyed_by_id_singleton glyph_A)
              (range_order_singleton 65 glyph_A) range_order_Rotate_font_A)
    as (_ & _ & _ & _ & Hglyph).
  destruct (Hglyph 65 glyph_A (lookup_singleton_eq 65 glyph_A))
    as (char'' & Hlook & Hx & Hy & _ & _ & _ & _ & Hadv).
  exists char''. split; [exact Hlook|]. split; [exact Hx|].
  split; [exact Hy|exact Hadv].
Defined.

(** ** The accessor [Scale] *)

(** C10: [Scale] returns the point [(scaleH, scaleH)]: both coordinates are
    the page height, [scaleW] is not read, and the result is the page
    dimensions [(scaleW, scaleH)] exactly when [scaleW = scaleH]. *)
Theorem Scale_reads_ScaleH_only :
  (∀ c, Common.Scale c = Point.Pt (Common.ScaleH c) (Common.ScaleH c)) ∧
  (∀ lineHeight base scaleW1 scaleW2 scaleH packed alpha red green blue,
     Common.Scale
       (Common.mk lineHeight base scaleW1 scaleH packed alpha red green blue) =
     Common.Scale
       (Common.mk lineHeight base scaleW2 scaleH packed alpha red green blue)) ∧
  (∀ c, Common.Scale c = Point.Pt (Common.ScaleW c) (Common.ScaleH c)
        ↔ Common.ScaleW c = Common.ScaleH c).
Proof.
  split_and!; try reflexivity.
  intros c. unfold Common.Scale. split.
  - intros [= ->]. reflexivity.
  - intros ->. reflexivity.
Qed.

(** ** The dump *)

Lemma append_String (c : ascii) (s1 s2 : string) :
  String c s1 +:+ s2 = String c (s1 +:+ s2).
Proof. reflexivity. Qed.

Lemma append_empty_l (s : string) : EmptyString +:+ s = s.
Proof. reflexivity. Qed.

Lemma append_assoc (s1 s2 s3 : string) :
  (s1 +:+ s2) +:+ s3 = s1 +:+ (s2 +:+ s3).
Proof.
  induction s1 as [|c s1 IH]; [done|]. by rewrite !append_String, IH.
Qed.

Lemma append_empty_r (s : string) : s +:+ EmptyString = s.
Proof. induction s as [|c s IH]; [done|]. by rewrite append_String, IH. Qed.

Lemma unlines_app (l1 l2 : list string) :
  unlines (l1 ++ l2) = unlines l1 +:+ unlines l2.
Proof.
  induction l1 as [|l l1 IH]; [done|].
  cbn [app unlines foldr]. fold (unlines (l1 ++ l2)). fold (unlines l1).
  by rewrite IH, !append_assoc.
Qed.

Lemma range_lines_unlines {V : Type} (line : V → string)
    (m : gmap Z V) (order : list Z) (acc : string) :
  Descriptor.range_lines line m order acc =
    acc +:+ unlines (lines_of line m order).
Proof.
  unfold Descriptor.range_lines, lines_of.
  revert acc. induction order as [|k order IH]; intros acc;
    cbn [foldl omap list_omap].
  - cbn [unlines foldr]. by rewrite append_empty_r.
  - rewrite IH. destruct (m !! k) as [v|]; cbn [fmap option_fmap option_map];
      [|done].
    cbn [unlines foldr]. by rewrite !append_assoc.
Qed.

Lemma lines_of_entries {V : Type} (line : V → string) (m : gmap Z V)
    (l : list (Z * V)) :
  (∀ k v, (k, v) ∈ l → m !! k = Some v) →
  lines_of line m l.*1 = line <$> l.*2.
Proof.
  induction l as [|[k v] l IH]; intros Hl; simpl; [done|].
  rewrite (Hl k v) by left. simpl. f_equal. apply IH.
  intros k' v' Hin. apply Hl. by right.
Qed.

(** A loop over [m] emits one line per entry of [m]. *)
Lemma lines_of_range_order {V : Type} (line : V → string) (m : gmap Z V)
    (order : list Z) :
  range_order m order →
  lines_of line m order ≡ₚ line <$> (map_to_list m).*2.
Proof.
  intros Ho. unfold lines_of at 1. rewrite Ho.
  fold (lines_of line m (map_to_list m).*1).
  rewrite lines_of_entries; [done|].
  intros k v. apply elem_of_map_to_list.
Qed.

Lemma String_unlines porder corder d :
  Descriptor.String porder corder d =
    unlines ([Info.String (Descriptor.Info d);
              Descriptor.printCommon (Descriptor.Common d) (Descriptor.Pages d)]
             ++ lines_of Page.String (Descriptor.Pages d) porder
             ++ ["chars count=" +:+
                 fmt_d (Z.of_nat (size (Descriptor.Chars d)))]
             ++ lines_of Char.String (Descriptor.Chars d) corder).
Proof.
  unfold Descriptor.String. cbv zeta. rewrite !range_lines_unlines.
  rewrite !unlines_app. cbn [unlines foldr].
  by rewrite !append_assoc, !append_empty_l, ?append_empty_r.
Qed.

Lemma lines_of_length {V : Type} (line : V → string) (m : gmap Z V)
    (order : list Z) :
  range_order m order → length (lines_of line m order) = size m.
Proof.
  intros Ho. rewrite (lines_of_range_order line m order Ho).
  by rewrite !length_fmap, length_map_to_list.
Qed.

(** C7: the dump is, in this order, the [info] line, the [common] line, whose
    [pages=] field is the size the page mapping has now, one line per entry of
    the page mapping, the line [chars count=] with the size of the glyph
    mapping, and one line per entry of the glyph mapping; the kerning mapping
    has no part in it. *)
Theorem String_layout :
  (∀ porder corder info common pages chars kerning1 kerning2,
     Descriptor.String porder corder
       (Descriptor.mk info common pages chars kerning1) =
     Descriptor.String porder corder
       (Descriptor.mk info common pages chars kerning2)) ∧
  (∀ c pages,
     Descriptor.printCommon c pages =
       "common lineHeight=" +:+ fmt_d (Common.LineHeight c)
       +:+ " base=" +:+ fmt_d (Common.Base c)
       +:+ " scaleW=" +:+ fmt_d (Common.ScaleW c)
       +:+ " scaleH=" +:+ fmt_d (Common.ScaleH c)
       +:+ " pages=" +:+ fmt_d (Z.of_nat (size pages))
       +:+ " packed=" +:+ fmt_d (boolToInt (Common.Packed c))
       +:+ " alphaChnl=" +:+ fmt_d (Common.AlphaChannel c)
       +:+ " redChnl=" +:+ fmt_d (Common.RedChannel c)
       +:+ " greenChnl=" +:+ fmt_d (Common.GreenChannel c)
       +:+ " blueChnl=" +:+ fmt_d (Common.BlueChannel c)) ∧
  (∀ porder corder d,
     range_order (Descriptor.Pages d) porder →
     range_order (Descriptor.Chars d) corder →
     ∃ plines clines,
       Descriptor.String porder corder d =
         unlines ([Info.String (Descriptor.Info d);
                   Descriptor.printCommon (Descriptor.Common d)
                     (Descriptor.Pages d)]
                  ++ plines
                  ++ ["chars count=" +:+
                      fmt_d (Z.of_nat (size (Descriptor.Chars d)))]
                  ++ clines) ∧
       plines ≡ₚ Page.String <$> (map_to_list (Descriptor.Pages d)).*2 ∧
       clines ≡ₚ Char.String <$> (map_to_list (Descriptor.Chars d)).*2 ∧
       length plines = size (Descriptor.Pages d) ∧
       length clines = size (Descriptor.Chars d)).
Proof.
  split; [reflexivity|]. split; [reflexivity|].
  intros porder corder d Hp Hc.
  exists (lines_of Page.String (Descriptor.Pages d) porder),
         (lines_of Char.String (Descriptor.Chars d) corder).
  split; [apply String_unlines|].
  split; [by apply lines_of_range_order|].
  split; [by apply lines_of_range_order|].
  split; by apply lines_of_length.
Qed.

Lemma String_layout_witness :
  ∃ plines clines,
    Descriptor.String [0] [65] font_A =
      unlines ([Info.String plain_info;
                Descriptor.printCommon plain_common (Descriptor.Pages font_A)]
               ++ plines ++ ["chars count=1"] ++ clines) ∧
    length plines = 1%nat ∧ length clines = 1%nat.
Proof.
  destruct (proj2 (proj2 String_layout) [0] [65] font_A
              (range_order_singleton 0 (Page.mk 0 "a.png"))
              (range_order_singleton 65 glyph_A))
    as (plines & clines & Hs & _ & _ & Hlp & Hlc).
  exists plines, clines. split; [exact Hs|]. split; [exact Hlp|exact Hlc].
Defined.

Lemma range_order_font_AB_1 : range_order (Descriptor.Chars font_AB) [65; 66].
Proof.
  apply range_order_intro.
  - apply NoDup_cons. split; [|apply NoDup_singleton].
    rewrite list_elem_of_singleton. discriminate.
  - intros k. unfold font_AB, Descriptor.Chars.
    rewrite !elem_of_cons, elem_of_nil.
    destruct (decide (k = 65)) as [->|H65].
    { rewrite lookup_insert_eq. split; [by eexists|by left]. }
    rewrite lookup_insert_ne by done.
    destruct (decide (k = 66)) as [->|H66].
    { rewrite lookup_singleton_eq. split; [by eexists|by right; left]. }
    rewrite lookup_singleton_ne by done.
    split; [tauto|]. by intros [? ?].
Qed.

Lemma range_order_font_AB_2 : range_order (Descriptor.Chars font_AB) [66; 65].
Proof.
  unfold range_order. rewrite <- range_order_font_AB_1. apply Permutation_swap.
Qed.

(** C8, as the specification states it, fails: on a font with the two glyphs
    65 and 66, the loop over the glyph mapping may visit 65 first or 66
    first, and the two dumps differ. *)
Lemma String_two_orders :
  range_order (Descriptor.Pages font_AB) [0] ∧
  range_order (Descriptor.Chars font_AB) [65; 66] ∧
  range_order (Descriptor.Chars font_AB) [66; 65] ∧
  Descriptor.String [0] [65; 66] font_AB ≠
    Descriptor.String [0] [66; 65] font_AB.
Proof.
  split; [apply range_order_singleton|].
  split; [apply range_order_font_AB_1|].
  split; [apply range_order_font_AB_2|].
  vm_compute. discriminate.
Qed.

Lemma range_order_unique {K V : Type} `{Countable K}
    (m : gmap K V) (order1 order2 : list K) :
  (size m ≤ 1)%nat →
  range_order m order1 → range_order m order2 → order1 = order2.
Proof.
  unfold range_order. intros Hsize H1 H2.
  assert (length (map_to_list m).*1 ≤ 1)%nat as Hlen.
  { by rewrite length_fmap, length_map_to_list. }
  destruct ((map_to_list m).*1) as [|k [|k' l]]; simpl in Hlen; [| |lia].
  - apply Permutation_nil_r in H1, H2. by subst.
  - apply Permutation_singleton_r in H1, H2. by subst.
Qed.

(** C8, as the code has it: the dump is a function of the descriptor and of
    the orders in which the two loops visit the page mapping and the glyph
    mapping.  Two dumps of one descriptor have the same [info], [common] and
    [chars count=] lines and the same page lines and glyph lines up to their
    order; they are the same text when the page mapping and the glyph mapping
    have at most one entry each. *)
Theorem String_up_to_order porder1 corder1 porder2 corder2 d :
  range_order (Descriptor.Pages d) porder1 →
  range_order (Descriptor.Chars d) corder1 →
  range_order (Descriptor.Pages d) porder2 →
  range_order (Descriptor.Chars d) corder2 →
  (∃ plines1 clines1 plines2 clines2,
     let head := [Info.String (Descriptor.Info d);
                  Descriptor.printCommon (Descriptor.Common d)
                    (Descriptor.Pages d)] in
     let count := ["chars count=" +:+
                   fmt_d (Z.of_nat (size (Descriptor.Chars d)))] in
     Descriptor.String porder1 corder1 d =
       unlines (head ++ plines1 ++ count ++ clines1) ∧
     Descriptor.String porder2 corder2 d =
       unlines (head ++ plines2 ++ count ++ clines2) ∧
     plines1 ≡ₚ plines2 ∧ clines1 ≡ₚ clines2) ∧
  ((size (Descriptor.Pages d) ≤ 1)%nat →
   (size (Descriptor.Chars d) ≤ 1)%nat →
   Descriptor.String porder1 corder1 d = Descriptor.String porder2 corder2 d).
Proof.
  intros Hp1 Hc1 Hp2 Hc2. split.
  - exists (lines_of Page.String (Descriptor.Pages d) porder1),
           (lines_of Char.String (Descriptor.Chars d) corder1),
           (lines_of Page.String (Descriptor.Pages d) porder2),
           (lines_of Char.String (Descriptor.Chars d) corder2).
    cbv zeta. split; [apply String_unlines|]. split; [apply String_unlines|].
    split.
    + by rewrite !lines_of_range_order.
    + by rewrite !lines_of_range_order.
  - intros Hsp Hsc.
    by rewrite (range_order_unique _ porder1 porder2 Hsp Hp1 Hp2),
               (range_order_unique _ corder1 corder2 Hsc Hc1 Hc2).
Qed.

Lemma String_up_to_order_witness :
  Descriptor.String [0] [65; 66] font_AB =
    unlines ([Info.String plain_info;
              Descriptor.printCommon plain_common (Descriptor.Pages font_AB)]
             ++ [Page.String (Page.mk 0 "a.png")] ++ ["chars count=2"]
             ++ [Char.String glyph_A; Char.String glyph_B]) ∧
  ∃ plines1 clines1 plines2 clines2,
    Descriptor.String [0] [65; 66] font_AB =
      unlines ([Info.String plain_info;
                Descriptor.printCommon plain_common (Descriptor.Pages font_AB)]
               ++ plines1 ++ ["chars count=2"] ++ clines1) ∧
    Descriptor.String [0] [66; 65] font_AB =
      unlines ([Info.String plain_info;
                Descriptor.printCommon plain_common (Descriptor.Pages font_AB)]
               ++ plines2 ++ ["chars count=2"] ++ clines2) ∧
    plines1 ≡ₚ plines2 ∧ clines1 ≡ₚ clines2.
Proof.
  split; [vm_compute; reflexivity|].
  exact (proj1 (String_up_to_order [0] [65; 66] [0] [66; 65] font_AB
                 (range_order_singleton 0 (Page.mk 0 "a.png"))
                 range_order_font_AB_1
                 (range_order_singleton 0 (Page.mk 0 "a.png"))
                 range_order_font_AB_2)).
Defined.

(** ** The parser *)

Lemma decode_attrs_spec keys attrs :
  match Parse.decode_attrs keys attrs with
  | inl _ => Forall (attr_ok keys) attrs
  | inr key =>
      ∃ pre tok post, attrs = pre ++ (key, tok) :: post ∧
        Forall (attr_ok keys) pre ∧ ¬ attr_ok keys (key, tok)
  end.
Proof.
  induction attrs as [|[key tok] attrs IH]; cbn [Parse.decode_attrs].
  - constructor.
  - assert (∀ bad, ¬ attr_ok keys (key, tok) → bad = key →
              ∃ pre tok' post, (key, tok) :: attrs = pre ++ (bad, tok') :: post ∧
                Forall (attr_ok keys) pre ∧ ¬ attr_ok keys (bad, tok')) as Hhere.
    { intros bad Hbad ->. exists [], tok, attrs. by split_and!. }
    assert (attr_ok keys (key, tok) →
            match Parse.decode_attrs keys attrs with
            | inl _ => Forall (attr_ok keys) ((key, tok) :: attrs)
            | inr bad =>
                ∃ pre tok' post,
                  (key, tok) :: attrs = pre ++ (bad, tok') :: post ∧
                  Forall (attr_ok keys) pre ∧ ¬ attr_ok keys (bad, tok')
            end) as Hnext.
    { intros Hok. destruct (Parse.decode_attrs keys attrs) as [vs|bad].
      - by constructor.
      - destruct IH as (pre & tok' & post & -> & Hpre & Hbad).
        exists ((key, tok) :: pre), tok', post. split_and!; [done| |done].
        by constructor. }
    destruct tok as [s|s|s].
    + destruct (Parse.assoc key keys) as [k|] eqn:Hk.
      * destruct (Parse.decode k (Parse.Bare s)) as [v|] eqn:Hv.
        -- assert (attr_ok keys (key, Parse.Bare s)) as Hok.
           { unfold attr_ok. cbn [fst snd]. rewrite Hk, Hv. by eexists. }
           specialize (Hnext Hok).
           by destruct (Parse.decode_attrs keys attrs).
        -- apply Hhere; [|done]. unfold attr_ok. cbn [fst snd].
           rewrite Hk, Hv. by intros [? ?].
      * apply Hnext. unfold attr_ok. cbn [fst snd]. by rewrite Hk.
    + destruct (Parse.assoc key keys) as [k|] eqn:Hk.
      * destruct (Parse.decode k (Parse.Quoted s)) as [v|] eqn:Hv.
        -- assert (attr_ok keys (key, Parse.Quoted s)) as Hok.
           { unfold attr_ok. cbn [fst snd]. rewrite Hk, Hv. by eexists. }
           specialize (Hnext Hok).
           by destruct (Parse.decode_attrs keys attrs).
        -- apply Hhere; [|done]. unfold attr_ok. cbn [fst snd].
           rewrite Hk, Hv. by intros [? ?].
      * apply Hnext. unfold attr_ok. cbn [fst snd]. by rewrite Hk.
    + apply Hhere; [|done]. unfold attr_ok. cbn [fst snd]. tauto.
Qed.

Lemma line_fails_at_not_ok ln tag key : line_fails_at ln tag key → ¬ line_ok ln.
Proof.
  intros (keys & pre & tok & post & <- & Hkeys & Hattrs & _ & Hbad) Hok.
  specialize (Hok keys Hkeys). rewrite Hattrs in Hok.
  apply Forall_app in Hok as [_ Hok]. apply Forall_cons in Hok as [Hok _].
  done.
Qed.

Lemma first_failure_unique {A : Type} (P : A → Prop)
    (pre1 pre2 post1 post2 : list A) (a1 a2 : A) :
  pre1 ++ a1 :: post1 = pre2 ++ a2 :: post2 →
  Forall P pre1 → ¬ P a1 → Forall P pre2 → ¬ P a2 → a1 = a2.
Proof.
  revert pre2. induction pre1 as [|x pre1 IH]; intros [|y pre2] Heq H1 Ha1 H2 Ha2;
    simplify_eq/=.
  - done.
  - apply Forall_cons in H2 as [? _]. done.
  - apply Forall_cons in H1 as [? _]. done.
  - apply Forall_cons in H1 as [_ H1]. apply Forall_cons in H2 as [_ H2].
    by apply (IH pre2).
Qed.

Lemma line_fails_at_unique ln tag1 key1 tag2 key2 :
  line_fails_at ln tag1 key1 → line_fails_at ln tag2 key2 →
  tag1 = tag2 ∧ key1 = key2.
Proof.
  intros (keys1 & pre1 & tok1 & post1 & <- & Hk1 & Ha1 & Hp1 & Hb1)
         (keys2 & pre2 & tok2 & post2 & <- & Hk2 & Ha2 & Hp2 & Hb2).
  split; [done|]. rewrite Hk1 in Hk2. injection Hk2 as <-.
  rewrite Ha1 in Ha2.
  by pose proof (first_failure_unique _ _ _ _ _ _ _ Ha2 Hp1 Hb1 Hp2 Hb2)
    as [= -> _].
Qed.

Lemma holds_malformed_integer_not_ok ln :
  holds_malformed_integer ln → ¬ line_ok ln.
Proof.
  intros (keys & key & s & Hkeys & Hin & Hkey & Hs) Hok.
  specialize (Hok keys Hkeys). rewrite Forall_forall in Hok.
  specialize (Hok _ Hin). unfold attr_ok in Hok. cbn [fst snd] in Hok.
  rewrite Hkey in Hok. cbn [Parse.decode] in Hok. rewrite Hs in Hok.
  by destruct Hok.
Qed.

Lemma parse_line_spec name n ln d :
  match Parse.parse_line name n ln d with
  | inl _ => line_ok ln
  | inr e => ∃ tag key, e = MalformedValue name n tag key ∧
               line_fails_at ln tag key
  end.
Proof.
  unfold Parse.parse_line. cbv zeta.
  destruct (Parse.assoc (Parse.lex_line ln).1 Parse.tags) as [keys|] eqn:Hkeys.
  - pose proof (decode_attrs_spec keys (Parse.lex_line ln).2) as Hspec.
    destruct (Parse.decode_attrs keys (Parse.lex_line ln).2) as [vs|key].
    + intros keys' Hkeys'. rewrite Hkeys in Hkeys'. by injection Hkeys' as <-.
    + destruct Hspec as (pre & tok & post & Hattrs & Hpre & Hbad).
      exists (Parse.lex_line ln).1, key. split; [done|].
      by exists keys, pre, tok, post.
  - intros keys' Hkeys'. by rewrite Hkeys in Hkeys'.
Qed.

(** The parse fails at the first line that does not decode and names it. *)
Lemma parse_lines_spec name lines : ∀ n d,
  match Parse.parse_lines name n lines d with
  | inl _ => Forall line_ok lines
  | inr e =>
      ∃ j lnj tag key,
        lines !! j = Some lnj ∧
        e = MalformedValue name (n + j) tag key ∧
        line_fails_at lnj tag key ∧
        Forall line_ok (take j lines)
  end.
Proof.
  induction lines as [|ln lines IH]; intros n d; cbn [Parse.parse_lines].
  - constructor.
  - pose proof (parse_line_spec name n ln d) as Hline.
    destruct (Parse.parse_line name n ln d) as [d'|e].
    + specialize (IH (S n) d').
      destruct (Parse.parse_lines name (S n) lines d') as [d''|e].
      * by constructor.
      * destruct IH as (j & lnj & tag & key & Hj & -> & Hfail & Hpre).
        exists (S j), lnj, tag, key. split_and!; [done| |done|].
        -- f_equal. lia.
        -- cbn [take]. by constructor.
    + destruct Hline as (tag & key & -> & Hfail).
      exists 0%nat, ln, tag, key. split_and!; [done| |done|].
      * f_equal. lia.
      * constructor.
Qed.

Lemma first_failure_index {A : Type} (P : A → Prop) (l : list A)
    (j1 j2 : nat) (a1 a2 : A) :
  l !! j1 = Some a1 → ¬ P a1 → Forall P (take j1 l) →
  l !! j2 = Some a2 → ¬ P a2 → Forall P (take j2 l) →
  j1 = j2.
Proof.
  intros H1 Hb1 Hp1 H2 Hb2 Hp2.
  destruct (decide (j1 < j2)%nat) as [Hlt|Hge].
  { rewrite Forall_lookup in Hp2. destruct Hb1. apply (Hp2 j1).
    by rewrite lookup_take_lt. }
  destruct (decide (j2 < j1)%nat) as [Hlt|Hge'].
  { rewrite Forall_lookup in Hp1. destruct Hb2. apply (Hp1 j2).
    by rewrite lookup_take_lt. }
  lia.
Qed.

Lemma parse_lines_fails name lines n d j lnj tag key :
  lines !! j = Some lnj → line_fails_at lnj tag key →
  Forall line_ok (take j lines) →
  Parse.parse_lines name n lines d = inr (MalformedValue name (n + j) tag key).
Proof.
  intros Hj Hfail Hpre.
  pose proof (line_fails_at_not_ok _ _ _ Hfail) as Hbad.
  pose proof (parse_lines_spec name lines n d) as Hspec.
  destruct (Parse.parse_lines name n lines d) as [d'|e].
  - rewrite Forall_lookup in Hspec. destruct Hbad. by apply (Hspec j).
  - destruct Hspec as (j' & lnj' & tag' & key' & Hj' & -> & Hfail' & Hpre').
    pose proof (line_fails_at_not_ok _ _ _ Hfail') as Hbad'.
    assert (j' = j) as -> by eauto using first_failure_index.
    rewrite Hj in Hj'. injection Hj' as <-.
    by destruct (line_fails_at_unique _ _ _ _ _ Hfail Hfail') as [-> ->].
Qed.

(** C9: the parse call returns a descriptor or an error, never both; and when
    a line of the stream gives an integer-valued key of its tag a token that
    is no integer, parsing fails with the malformed-value error and returns
    no descriptor, through [parseDescriptor], [ReadDescriptor] and
    [LoadDescriptor] alike.  The error names the first line of the stream
    that does not decode, its tag, and the key of the first attribute of that
    line that does not decode: the line and key of the malformed integer
    when nothing before it is malformed. *)
Theorem malformed_integer_fails :
  (∀ name r,
     (∃ d, parseDescriptor name r = (Some d, None)) ∨
     (∃ e, parseDescriptor name r = (None, Some e))) ∧
  (∀ (os_Open : string → error + File) (filepath_Base : string → string)
     (name r : string) (i : nat) (ln : string),
     Parse.split_lines r !! i = Some ln →
     holds_malformed_integer ln →
     ∃ j lnj tag key,
       (j ≤ i)%nat ∧
       Parse.split_lines r !! j = Some lnj ∧
       line_fails_at lnj tag key ∧
       Forall line_ok (take j (Parse.split_lines r)) ∧
       (Forall line_ok (take i (Parse.split_lines r)) →
        j = i ∧
        ∀ tag0 key0, line_fails_at ln tag0 key0 → tag = tag0 ∧ key = key0) ∧
       parseDescriptor name r =
         (None, Some (MalformedValue name (S j) tag key)) ∧
       ReadDescriptor r =
         (None, Some (MalformedValue "bmfont" (S j) tag key)) ∧
       (∀ path cErr,
          os_Open path = inr (mkFile r cErr) →
          LoadDescriptor os_Open filepath_Base path =
            (None, Some (MalformedValue (filepath_Base path) (S j) tag key)))).
Proof.
  split.
  { intros name r. unfold parseDescriptor.
    destruct (Parse.parse_lines name 1 (Parse.split_lines r)
                Parse.zero_descriptor) as [d|e]; [left|right]; by eexists. }
  intros os_Open filepath_Base name r i ln Hi Hmal.
  pose proof (holds_malformed_integer_not_ok _ Hmal) as Hbad.
  pose proof (parse_lines_spec name (Parse.split_lines r) 1
                Parse.zero_descriptor) as Hspec.
  destruct (Parse.parse_lines name 1 (Parse.split_lines r)
              Parse.zero_descriptor) as [d|e] eqn:Hparse.
  { rewrite Forall_lookup in Hspec. destruct Hbad. by apply (Hspec i). }
  destruct Hspec as (j & lnj & tag & key & Hj & -> & Hfail & Hpre).
  pose proof (line_fails_at_not_ok _ _ _ Hfail) as Hbadj.
  assert (∀ name', parseDescriptor name' r =
            (None, Some (MalformedValue name' (S j) tag key))) as Hall.
  { intros name'. unfold parseDescriptor.
    by rewrite (parse_lines_fails name' _ 1 _ j lnj tag key Hj Hfail Hpre). }
  exists j, lnj, tag, key. split_and!; try done.
  - destruct (decide (i < j)%nat) as [Hlt|]; [|lia].
    rewrite Forall_lookup in Hpre. destruct Hbad. apply (Hpre i).
    by rewrite lookup_take_lt.
  - intros Hprei.
    assert (j = i) as -> by eauto using first_failure_index.
    split; [done|]. intros tag0 key0 Hfail0.
    rewrite Hi in Hj. injection Hj as <-.
    by destruct (line_fails_at_unique _ _ _ _ _ Hfail Hfail0) as [-> ->].
  - apply Hall.
  - intros path cErr Hopen. unfold LoadDescriptor. rewrite Hopen.
    cbn [content close]. rewrite Hall. cbn [fst snd].
    by destruct cErr.
Qed.

(** When the descriptor parses and closing the file fails, [LoadDescriptor]
    returns the descriptor together with the error of [Close]. *)
Lemma LoadDescriptor_close_failure
    (os_Open : string → error + File) (filepath_Base : string → string)
    (path r : string) (cErr : error) (d : Descriptor.t) :
  os_Open path = inr (mkFile r (Some cErr)) →
  parseDescriptor (filepath_Base path) r = (Some d, None) →
  LoadDescriptor os_Open filepath_Base path = (Some d, Some cErr).
Proof.
  intros Hopen Hparse. unfold LoadDescriptor.
  rewrite Hopen. cbn [content close]. by rewrite Hparse.
Qed.

Lemma bad_stream_malformed : holds_malformed_integer bad_stream.
Proof.
  eexists _, "x", "abc". split_and!.
  - vm_compute. reflexivity.
  - apply (list_elem_of_lookup_2 _ 1%nat). vm_compute. reflexivity.
  - vm_compute. reflexivity.
  - vm_compute. reflexivity.
Qed.

Lemma malformed_integer_fails_witness :
  parseDescriptor "font.fnt" bad_stream =
    (None, Some (MalformedValue "font.fnt" 1 "char" "x")) ∧
  LoadDescriptor (one_file bad_stream) id "font.fnt" =
    (None, Some (MalformedValue "font.fnt" 1 "char" "x")).
Proof.
  destruct (proj2 malformed_integer_fails (one_file bad_stream) id
              "font.fnt" bad_stream 0%nat bad_stream eq_refl
              bad_stream_malformed)
    as (j & lnj & tag & key & Hle & _ & _ & _ & _ & Hparse & _ & Hload).
  specialize (Hload "font.fnt" None eq_refl).
  assert (parseDescriptor "font.fnt" bad_stream =
            (None, Some (MalformedValue "font.fnt" 1 "char" "x"))) as Hrun
    by (vm_compute; reflexivity).
  rewrite Hrun in Hparse. injection Hparse as <- <- <-.
  split; [exact Hrun|exact Hload].
Defined.

(** ** Where the hypotheses of the rotation come from *)

(** On a descriptor keyed by glyph id the result of [Rotate] does not depend
    on the order in which the loop visits the glyphs. *)
Lemma Rotate_order_irrelevant order1 order2 d :
  Descriptor.keyed_by_id (Descriptor.Chars d) →
  range_order (Descriptor.Chars d) order1 →
  range_order (Descriptor.Chars d) order2 →
  Descriptor.Rotate order1 d = Descriptor.Rotate order2 d.
Proof.
  intros Hk Ho1 Ho2.
  pose proof (Rotate_Chars order1 d Hk Ho1) as Hc1.
  pose proof (Rotate_Chars order2 d Hk Ho2) as Hc2.
  destruct (Rotate_range_lh (Common.ScaleH (Descriptor.Common d)) order1
              (Descriptor.Chars d) 0 Hk (range_order_NoDup _ _ Ho1))
    as (Hz1 & Hub1 & Hatt1).
  destruct (Rotate_range_lh (Common.ScaleH (Descriptor.Common d)) order2
              (Descriptor.Chars d) 0 Hk (range_order_NoDup _ _ Ho2))
    as (Hz2 & Hub2 & Hatt2).
  assert (∀ k, k ∈ order1 ↔ k ∈ order2) as Hsame.
  { intros k. by rewrite (range_order_elem _ _ k Ho1),
                         (range_order_elem _ _ k Ho2). }
  assert ((Descriptor.Rotate_range (Common.ScaleH (Descriptor.Common d))
             order1 (Descriptor.Chars d) 0).2 =
          (Descriptor.Rotate_range (Common.ScaleH (Descriptor.Common d))
             order2 (Descriptor.Chars d) 0).2) as Hlh.
  { apply Z.le_antisymm.
    - destruct Hatt1 as [->|(k & c & Hin & Hc & <-)]; [done|].
      apply (Hub2 k c); [by apply Hsame|done].
    - destruct Hatt2 as [->|(k & c & Hin & Hc & <-)]; [done|].
      apply (Hub1 k c); [by apply Hsame|done]. }
  unfold Descriptor.Rotate in *. cbn [Descriptor.Chars] in Hc1, Hc2.
  cbv zeta. rewrite Hlh. f_equal. cbn [Descriptor.Chars] in *. congruence.
Qed.

Lemma store_keyed tag vs d :
  Descriptor.keyed_by_id (Descriptor.Chars d) →
  Descriptor.keyed_by_id (Descriptor.Chars (Parse.store tag vs d)).
Proof.
  destruct d as [info common pages chars kerning]. unfold Parse.store.
  cbn [Descriptor.Chars]. intros Hk.
  repeat (match goal with
          | |- context [String.eqb tag ?s] => destruct (String.eqb tag s)
          end; cbn [Descriptor.Chars]; try done).
  by apply keyed_by_id_insert.
Qed.

Lemma parse_lines_keyed name lines : ∀ n d d',
  Descriptor.keyed_by_id (Descriptor.Chars d) →
  Parse.parse_lines name n lines d = inl d' →
  Descriptor.keyed_by_id (Descriptor.Chars d').
Proof.
  induction lines as [|ln lines IH]; intros n d d' Hk;
    cbn [Parse.parse_lines].
  - by intros [= <-].
  - destruct (Parse.parse_line name n ln d) as [d1|e] eqn:Hline; [|done].
    apply IH. revert Hline. unfold Parse.parse_line. cbv zeta.
    destruct (Parse.assoc _ Parse.tags) as [keys|].
    + destruct (Parse.decode_attrs keys _) as [vs|key]; [|done].
      intros [= <-]. by apply store_keyed.
    + by intros [= <-].
Qed.

Lemma keyed_by_id_zero :
  Descriptor.keyed_by_id (Descriptor.Chars Parse.zero_descriptor).
Proof. intros k c. cbn. by rewrite lookup_empty. Qed.

(** Every descriptor the parser returns is keyed by glyph id. *)
Lemma parseDescriptor_keyed name r d err :
  parseDescriptor name r = (Some d, err) →
  Descriptor.keyed_by_id (Descriptor.Chars d).
Proof.
  unfold parseDescriptor.
  destruct (Parse.parse_lines name 1 (Parse.split_lines r)
              Parse.zero_descriptor) as [d'|e] eqn:Hparse; [|done].
  intros [= <- _]. apply (parse_lines_keyed _ _ _ _ _ keyed_by_id_zero Hparse).
Qed.

(** * Further properties of the rotation *)

Lemma wrap_sub_m a b c : wrap (a - wrap b - c) = wrap (a - b - c).
Proof.
  unfold wrap. f_equal.
  replace (a - ((b - int_min) mod 2 ^ int_bits + int_min) - c - int_min)
    with ((a - c - 2 * int_min) - (b - int_min) mod 2 ^ int_bits) by lia.
  rewrite Zminus_mod_idemp_r. f_equal. lia.
Qed.

Lemma wrap_wrap a : wrap (wrap a) = wrap a.
Proof. apply wrap_id, wrap_is_int. Qed.

(** The running maximum never decreases, on any mapping. *)
Lemma Rotate_range_mono scaleW order : ∀ chars lh,
  lh ≤ (Descriptor.Rotate_range scaleW order chars lh).2.
Proof.
  induction order as [|a order IH]; intros chars lh;
    cbn [Descriptor.Rotate_range snd]; [lia|].
  destruct (chars !! a) as [char|]; [|apply IH].
  etrans; [|apply IH].
  destruct (Z.ltb_spec lh (Char.Height (Descriptor.Rotate_char scaleW char)));
    lia.
Qed.

(** X1: whatever the descriptor and the order of the visit, after [Rotate]
    [base] equals [lineHeight], [lineHeight] is 0 or more, and neither depends
    on the [lineHeight] and [base] the descriptor had. *)
Theorem Rotate_line_metrics_reset :
  ∀ order info lineHeight base scaleW scaleH packed alpha red green blue
    pages chars kerning lineHeight0 base0,
    let d := Descriptor.mk info
               (Common.mk lineHeight base scaleW scaleH packed alpha red green
                          blue) pages chars kerning in
    let d0 := Descriptor.mk info
                (Common.mk lineHeight0 base0 scaleW scaleH packed alpha red
                           green blue) pages chars kerning in
    Common.Base (Descriptor.Common (Descriptor.Rotate order d)) =
      Common.LineHeight (Descriptor.Common (Descriptor.Rotate order d)) ∧
    0 ≤ Common.LineHeight (Descriptor.Common (Descriptor.Rotate order d)) ∧
    Descriptor.Rotate order d = Descriptor.Rotate order d0.
Proof.
  intros. split; [reflexivity|]. split; [|reflexivity].
  apply Rotate_range_mono.
Qed.

Lemma keyed_by_id_font_AB : Descriptor.keyed_by_id (Descriptor.Chars font_AB).
Proof.
  intros k c. unfold font_AB, Descriptor.Chars.
  rewrite lookup_insert. case_decide as H65.
  - intros [= <-]. done.
  - rewrite lookup_singleton_Some. by intros [<- <-].
Qed.

(** X2: although [Rotate] ranges over a Go map, on a descriptor keyed by glyph id
    its result is the same for every order in which the glyphs are
    visited. *)
Theorem Rotate_is_deterministic order1 order2 d :
  Descriptor.keyed_by_id (Descriptor.Chars d) →
  range_order (Descriptor.Chars d) order1 →
  range_order (Descriptor.Chars d) order2 →
  Descriptor.Rotate order1 d = Descriptor.Rotate order2 d.
Proof. apply Rotate_order_irrelevant. Qed.

Lemma Rotate_is_deterministic_witness :
  Descriptor.Rotate [65; 66] font_AB = Descriptor.Rotate [66; 65] font_AB.
Proof.
  exact (Rotate_is_deterministic [65; 66] [66; 65] font_AB
           keyed_by_id_font_AB range_order_font_AB_1 range_order_font_AB_2).
Defined.

(** On a glyph that lies on the page no operation of the loop body that
    places the box overflows. *)
Lemma Rotate_char_in_canvas c char :
  in_canvas c char →
  Char.X (Descriptor.Rotate_char (Common.ScaleH c) char) =
    Common.ScaleH c - Char.Y char - Char.Height char.
Proof.
  intros (HW & HH & Hx & Hy & Hw & Hh & Hxw & Hyh).
  cbn [Descriptor.Rotate_char Char.X]. rewrite int_sub_sub.
  apply wrap_id. unfold is_int, int_min, int_max, int_bits in *. lia.
Qed.

Lemma Bounds_in_canvas c char :
  in_canvas c char →
  Char.Bounds char =
    Rectangle.mk (Point.Pt (Char.X char) (Char.Y char))
      (Point.Pt (Char.X char + Char.Width char)
                (Char.Y char + Char.Height char)).
Proof.
  intros (HW & HH & Hx & Hy & Hw & Hh & Hxw & Hyh).
  unfold Char.Bounds, Char.Pos, Char.Size, Point.Add, int_add.
  cbn [Point.X Point.Y].
  rewrite !wrap_id; [done| |];
    unfold is_int, int_min, int_max, int_bits in *; lia.
Qed.

Lemma Rotate_in_canvas order d char :
  in_canvas (Descriptor.Common d) char →
  in_canvas (Descriptor.Common (Descriptor.Rotate order d))
    (Descriptor.Rotate_char (Common.ScaleH (Descriptor.Common d)) char).
Proof.
  intros Hin. pose proof (Rotate_char_in_canvas _ _ Hin) as HX.
  destruct Hin as (HW & HH & Hx & Hy & Hw & Hh & Hxw & Hyh).
  unfold in_canvas. rewrite HX.
  cbn [Descriptor.Rotate Descriptor.Common Common.ScaleW Common.ScaleH
       Descriptor.Rotate_char Char.Y Char.Width Char.Height].
  split_and!; try done; lia.
Qed.

(** X3: [Rotate] keeps the glyphs on the page.  In a descriptor keyed by
    glyph id, a glyph whose box lies on the page before the rotation has its
    box on the rotated page afterwards, and that box is the image of the old
    one under the quarter turn that sends the point [(px, py)] to
    [(scaleH - py, px)]: its corners are
    [(scaleH - maxY, minX)] and [(scaleH - minY, maxX)]. *)
Theorem Rotate_keeps_in_canvas order d k char :
  Descriptor.keyed_by_id (Descriptor.Chars d) →
  range_order (Descriptor.Chars d) order →
  Descriptor.Chars d !! k = Some char →
  in_canvas (Descriptor.Common d) char →
  ∃ char',
    Descriptor.Chars (Descriptor.Rotate order d) !! k = Some char' ∧
    in_canvas (Descriptor.Common (Descriptor.Rotate order d)) char' ∧
    Char.Bounds char' =
      Rectangle.mk
        (Point.Pt (Common.ScaleH (Descriptor.Common d)
                   - Point.Y (Rectangle.Max (Char.Bounds char)))
                  (Point.X (Rectangle.Min (Char.Bounds char))))
        (Point.Pt (Common.ScaleH (Descriptor.Common d)
                   - Point.Y (Rectangle.Min (Char.Bounds char)))
                  (Point.X (Rectangle.Max (Char.Bounds char)))).
Proof.
  intros Hk Ho Hchar Hin.
  exists (Descriptor.Rotate_char (Common.ScaleH (Descriptor.Common d)) char).
  split; [by rewrite Rotate_Chars, lookup_fmap, Hchar by done|].
  pose proof (Rotate_in_canvas order d char Hin) as Hin'.
  split; [done|].
  rewrite (Bounds_in_canvas _ _ Hin'), (Bounds_in_canvas _ _ Hin).
  rewrite (Rotate_char_in_canvas _ _ Hin).
  cbn [Descriptor.Rotate_char Char.Y Char.Width Char.Height
       Rectangle.Min Rectangle.Max Point.X Point.Y].
  f_equal; f_equal; lia.
Qed.

Lemma in_canvas_glyph_A : in_canvas plain_common glyph_A.
Proof.
  unfold in_canvas, is_int, int_min, int_max, int_bits. cbn. lia.
Qed.

Lemma Rotate_keeps_in_canvas_witness :
  ∃ char',
    Descriptor.Chars (Descriptor.Rotate [65] font_A) !! 65 = Some char' ∧
    in_canvas (Descriptor.Common (Descriptor.Rotate [65] font_A)) char' ∧
    Char.Bounds char' =
      Rectangle.mk (Point.Pt 103 10) (Point.Pt 108 40).
Proof.
  exact (Rotate_keeps_in_canvas [65] font_A 65 glyph_A
           (keyed_by_id_singleton glyph_A)
           (range_order_singleton 65 glyph_A)
           (lookup_singleton_eq 65 glyph_A)
           in_canvas_glyph_A).
Defined.

(** X4: [Rotate] keeps the packing of the page.  In a descriptor keyed by
    glyph id, two glyphs whose boxes lie on the page have disjoint boxes
    after the rotation exactly when they had disjoint boxes before. *)
Theorem Rotate_keeps_disjoint order d k1 char1 k2 char2 :
  Descriptor.keyed_by_id (Descriptor.Chars d) →
  range_order (Descriptor.Chars d) order →
  Descriptor.Chars d !! k1 = Some char1 →
  Descriptor.Chars d !! k2 = Some char2 →
  in_canvas (Descriptor.Common d) char1 →
  in_canvas (Descriptor.Common d) char2 →
  ∃ char1' char2',
    Descriptor.Chars (Descriptor.Rotate order d) !! k1 = Some char1' ∧
    Descriptor.Chars (Descriptor.Rotate order d) !! k2 = Some char2' ∧
    (boxes_disjoint char1' char2' ↔ boxes_disjoint char1 char2).
Proof.
  intros Hk Ho Hc1 Hc2 Hin1 Hin2.
  exists (Descriptor.Rotate_char (Common.ScaleH (Descriptor.Common d)) char1),
         (Descriptor.Rotate_char (Common.ScaleH (Descriptor.Common d)) char2).
  split; [by rewrite Rotate_Chars, lookup_fmap, Hc1 by done|].
  split; [by rewrite Rotate_Chars, lookup_fmap, Hc2 by done|].
  unfold boxes_disjoint.
  rewrite (Rotate_char_in_canvas _ _ Hin1), (Rotate_char_in_canvas _ _ Hin2).
  cbn [Descriptor.Rotate_char Char.Y Char.Width Char.Height].
  lia.
Qed.

Lemma in_canvas_glyph_B : in_canvas plain_common glyph_B.
Proof.
  unfold in_canvas, is_int, int_min, int_max, int_bits. cbn. lia.
Qed.

Lemma Rotate_keeps_disjoint_witness :
  ∃ char1' char2',
    Descriptor.Chars (Descriptor.Rotate [65; 66] font_AB) !! 65 = Some char1' ∧
    Descriptor.Chars (Descriptor.Rotate [65; 66] font_AB) !! 66 = Some char2' ∧
    (boxes_disjoint char1' char2' ↔ boxes_disjoint glyph_A glyph_B).
Proof.
  refine (Rotate_keeps_disjoint [65; 66] font_AB 65 glyph_A 66 glyph_B
            keyed_by_id_font_AB range_order_font_AB_1 _ _
            in_canvas_glyph_A in_canvas_glyph_B).
  - apply lookup_insert_eq.
  - unfold font_AB, Descriptor.Chars.
    rewrite lookup_insert_ne by done. apply lookup_singleton_eq.
Defined.

(** ** Repeated rotations *)

Lemma range_order_fmap {V : Type} (f : V → V) (m : gmap Z V) (order : list Z) :
  range_order m order → range_order (f <$> m) order.
Proof.
  intros Ho. apply range_order_intro; [by eapply range_order_NoDup|].
  intros k. rewrite (range_order_elem _ _ k Ho), lookup_fmap.
  by rewrite fmap_is_Some.
Qed.

Lemma range_order_Rotate order order' d :
  Descriptor.keyed_by_id (Descriptor.Chars d) →
  range_order (Descriptor.Chars d) order →
  range_order (Descriptor.Chars d) order' →
  range_order (Descriptor.Chars (Descriptor.Rotate order d)) order'.
Proof.
  intros Hk Ho Ho'. rewrite Rotate_Chars by done. by apply range_order_fmap.
Qed.

(** The loop body applied four times, with the page width and height taking
    turns. *)
Lemma Rotate_char_four scaleW scaleH char :
  Descriptor.Rotate_char scaleW
    (Descriptor.Rotate_char scaleH
       (Descriptor.Rotate_char scaleW
          (Descriptor.Rotate_char scaleH char))) =
  Char.mk (Char.ID char) (wrap (Char.X char)) (wrap (Char.Y char))
          (Char.Width char) (Char.Height char)
          (Char.XOffset char) (Char.YOffset char)
          (int_add (Char.Width char) (Char.XOffset char))
          (Char.Page char) (Char.Channel char).
Proof.
  destruct char as [id x y w h xo yo xa pg ch].
  unfold Descriptor.Rotate_char. cbn [Char.ID Char.X Char.Y Char.Width
    Char.Height Char.XOffset Char.YOffset Char.XAdvance Char.Page Char.Channel].
  rewrite !int_sub_sub, !wrap_sub_m. f_equal; f_equal; lia.
Qed.

Lemma Rotate_four_Chars order1 order2 order3 order4 d :
  Descriptor.keyed_by_id (Descriptor.Chars d) →
  range_order (Descriptor.Chars d) order1 →
  range_order (Descriptor.Chars d) order2 →
  range_order (Descriptor.Chars d) order3 →
  range_order (Descriptor.Chars d) order4 →
  let d4 := Descriptor.Rotate order4 (Descriptor.Rotate order3
              (Descriptor.Rotate order2 (Descriptor.Rotate order1 d))) in
  Descriptor.keyed_by_id (Descriptor.Chars d4) ∧
  (∀ order, range_order (Descriptor.Chars d) order →
            range_order (Descriptor.Chars d4) order) ∧
  ∀ k, Descriptor.Chars d4 !! k =
    (λ char, Char.mk (Char.ID char) (wrap (Char.X char)) (wrap (Char.Y char))
               (Char.Width char) (Char.Height char)
               (Char.XOffset char) (Char.YOffset char)
               (int_add (Char.Width char) (Char.XOffset char))
               (Char.Page char) (Char.Channel char))
    <$> Descriptor.Chars d !! k.
Proof.
  intros Hk Ho1 Ho2 Ho3 Ho4.
  set (d1 := Descriptor.Rotate order1 d).
  set (d2 := Descriptor.Rotate order2 d1).
  set (d3 := Descriptor.Rotate order3 d2).
  assert (Descriptor.keyed_by_id (Descriptor.Chars d1)) as Hk1
    by by apply Rotate_keyed.
  assert (∀ o, range_order (Descriptor.Chars d) o →
               range_order (Descriptor.Chars d1) o) as Hr1
    by (intros; by apply range_order_Rotate).
  assert (Descriptor.keyed_by_id (Descriptor.Chars d2)) as Hk2
    by (apply Rotate_keyed; auto).
  assert (∀ o, range_order (Descriptor.Chars d) o →
               range_order (Descriptor.Chars d2) o) as Hr2
    by (intros; apply range_order_Rotate; auto).
  assert (Descriptor.keyed_by_id (Descriptor.Chars d3)) as Hk3
    by (apply Rotate_keyed; auto).
  assert (∀ o, range_order (Descriptor.Chars d) o →
               range_order (Descriptor.Chars d3) o) as Hr3
    by (intros; apply range_order_Rotate; auto).
  intros d4. split; [apply Rotate_keyed; auto|].
  split; [intros; apply range_order_Rotate; auto|].
  intros k. unfold d4.
  rewrite (Rotate_Chars order4 d3) by auto.
  unfold d3. rewrite (Rotate_Chars order3 d2) by auto.
  unfold d2. rewrite (Rotate_Chars order2 d1) by auto.
  unfold d1. rewrite (Rotate_Chars order1 d) by auto.
  rewrite !lookup_fmap.
  destruct (Descriptor.Chars d !! k) as [char|]; [|done].
  cbn [fmap option_fmap option_map]. f_equal.
  apply Rotate_char_four.
Qed.

(** X5: four rotations bring back everything but the advances and the line
    metrics.  In a descriptor keyed by glyph id, after four calls of [Rotate]
    the [Info] record, the page size, the packing and channel fields, the
    page mapping and the kerning mapping are the original ones, and every
    glyph whose [x] and [y] are Go [int]s is the original glyph with its
    [xadvance] recomputed as [width + xoffset]. *)
Theorem Rotate_four_times order1 order2 order3 order4 d :
  Descriptor.keyed_by_id (Descriptor.Chars d) →
  range_order (Descriptor.Chars d) order1 →
  range_order (Descriptor.Chars d) order2 →
  range_order (Descriptor.Chars d) order3 →
  range_order (Descriptor.Chars d) order4 →
  let d4 := Descriptor.Rotate order4 (Descriptor.Rotate order3
              (Descriptor.Rotate order2 (Descriptor.Rotate order1 d))) in
  Descriptor.Info d4 = Descriptor.Info d ∧
  Common.ScaleW (Descriptor.Common d4) = Common.ScaleW (Descriptor.Common d) ∧
  Common.ScaleH (Descriptor.Common d4) = Common.ScaleH (Descriptor.Common d) ∧
  Common.Packed (Descriptor.Common d4) = Common.Packed (Descriptor.Common d) ∧
  Common.AlphaChannel (Descriptor.Common d4) =
    Common.AlphaChannel (Descriptor.Common d) ∧
  Common.RedChannel (Descriptor.Common d4) =
    Common.RedChannel (Descriptor.Common d) ∧
  Common.GreenChannel (Descriptor.Common d4) =
    Common.GreenChannel (Descriptor.Common d) ∧
  Common.BlueChannel (Descriptor.Common d4) =
    Common.BlueChannel (Descriptor.Common d) ∧
  Descriptor.Pages d4 = Descriptor.Pages d ∧
  Descriptor.Kerning d4 = Descriptor.Kerning d ∧
  dom (Descriptor.Chars d4) = dom (Descriptor.Chars d) ∧
  ∀ k char, Descriptor.Chars d !! k = Some char →
    is_int (Char.X char) → is_int (Char.Y char) →
    Descriptor.Chars d4 !! k = Some (with_recomputed_advance char).
Proof.
  intros Hk Ho1 Ho2 Ho3 Ho4 d4.
  destruct (Rotate_four_Chars order1 order2 order3 order4 d Hk Ho1 Ho2 Ho3 Ho4)
    as (_ & _ & Hchars). fold d4 in Hchars.
  split.
  { unfold d4. cbn [Descriptor.Rotate Descriptor.Info Info.Padding Info.Spacing
      Info.Face Info.Size Info.Bold Info.Italic Info.Charset Info.Unicode
      Info.StretchH Info.Smooth Info.AA Info.Outline Padding.Up Padding.Right
      Padding.Down Padding.Left Spacing.Horizontal Spacing.Vertical].
    by destruct (Descriptor.Info d) as [? ? ? ? ? ? ? ? ? [] [] ?]. }
  do 9 (split; [reflexivity|]).
  split.
  { apply set_eq. intros k. rewrite !elem_of_dom, Hchars.
    by rewrite fmap_is_Some. }
  intros k char Hchar HX HY. rewrite Hchars, Hchar.
  cbn [fmap option_fmap option_map]. unfold with_recomputed_advance.
  by rewrite !wrap_id.
Qed.

Lemma Rotate_four_times_witness :
  Descriptor.Info (Descriptor.Rotate [65] (Descriptor.Rotate [65]
    (Descriptor.Rotate [65] (Descriptor.Rotate [65] font_A)))) = plain_info ∧
  Descriptor.Chars (Descriptor.Rotate [65] (Descriptor.Rotate [65]
    (Descriptor.Rotate [65] (Descriptor.Rotate [65] font_A)))) !! 65 =
    Some (Char.mk 65 10 20 30 5 1 2 31 0 15).
Proof.
  destruct (Rotate_four_times [65] [65] [65] [65] font_A
              (keyed_by_id_singleton glyph_A)
              (range_order_singleton 65 glyph_A)
              (range_order_singleton 65 glyph_A)
              (range_order_singleton 65 glyph_A)
              (range_order_singleton 65 glyph_A))
    as (Hinfo & _ & _ & _ & _ & _ & _ & _ & _ & _ & _ & Hglyph).
  split; [exact Hinfo|].
  apply (Hglyph 65 glyph_A (lookup_singleton_eq 65 glyph_A)).
  - unfold is_int, int_min, int_max, int_bits. cbn. lia.
  - unfold is_int, int_min, int_max, int_bits. cbn. lia.
Defined.

Lemma Rotate_range_lh_spec scaleW order chars :
  Descriptor.keyed_by_id chars → range_order chars order →
  0 ≤ (Descriptor.Rotate_range scaleW order chars 0).2 ∧
  (∀ k char, chars !! k = Some char →
     Char.Width char ≤ (Descriptor.Rotate_range scaleW order chars 0).2) ∧
  ((Descriptor.Rotate_range scaleW order chars 0).2 = 0 ∨
   ∃ k char, chars !! k = Some char ∧
     Char.Width char = (Descriptor.Rotate_range scaleW order chars 0).2).
Proof.
  intros Hk Ho.
  destruct (Rotate_range_lh scaleW order chars 0 Hk (range_order_NoDup _ _ Ho))
    as (H0 & Hub & Hatt).
  split; [done|]. split.
  - intros k char Hc. apply (Hub k char); [|done].
    apply (range_order_elem _ _ k Ho). by eexists.
  - destruct Hatt as [?|(k & char & _ & Hc & Hw)]; [by left|].
    right. by exists k, char.
Qed.

(** [Rotate] reads the glyphs only through the loop body, and does not read
    [lineHeight] and [base]: two descriptors keyed by glyph id that differ in
    these alone have the same rotation. *)
Lemma Rotate_ext order order' d d' :
  Descriptor.keyed_by_id (Descriptor.Chars d) →
  Descriptor.keyed_by_id (Descriptor.Chars d') →
  range_order (Descriptor.Chars d) order →
  range_order (Descriptor.Chars d') order' →
  Descriptor.Info d' = Descriptor.Info d →
  Common.ScaleW (Descriptor.Common d') = Common.ScaleW (Descriptor.Common d) →
  Common.ScaleH (Descriptor.Common d') = Common.ScaleH (Descriptor.Common d) →
  Common.Packed (Descriptor.Common d') = Common.Packed (Descriptor.Common d) →
  Common.AlphaChannel (Descriptor.Common d') =
    Common.AlphaChannel (Descriptor.Common d) →
  Common.RedChannel (Descriptor.Common d') =
    Common.RedChannel (Descriptor.Common d) →
  Common.GreenChannel (Descriptor.Common d') =
    Common.GreenChannel (Descriptor.Common d) →
  Common.BlueChannel (Descriptor.Common d') =
    Common.BlueChannel (Descriptor.Common d) →
  Descriptor.Pages d' = Descriptor.Pages d →
  Descriptor.Kerning d' = Descriptor.Kerning d →
  (∀ k, Descriptor.Rotate_char (Common.ScaleH (Descriptor.Common d))
          <$> Descriptor.Chars d' !! k =
        Descriptor.Rotate_char (Common.ScaleH (Descriptor.Common d))
          <$> Descriptor.Chars d !! k) →
  Descriptor.Rotate order' d' = Descriptor.Rotate order d.
Proof.
  intros Hk Hk' Ho Ho' HI HW HH HP HA HR HG HB HPg HKr Hchars.
  pose proof (Rotate_Chars order d Hk Ho) as E.
  pose proof (Rotate_Chars order' d' Hk' Ho') as E'.
  pose proof (Rotate_range_lh_spec (Common.ScaleH (Descriptor.Common d))
                order _ Hk Ho) as (L0 & Lub & Latt).
  pose proof (Rotate_range_lh_spec (Common.ScaleH (Descriptor.Common d'))
                order' _ Hk' Ho') as (L0' & Lub' & Latt').
  destruct d as [i c p ch kr], d' as [i' c' p' ch' kr'].
  destruct c as [lh0 b0 W H pk a r g b], c' as [lh0' b0' W' H' pk' a' r' g' b'].
  cbn [Descriptor.Info Descriptor.Common Descriptor.Pages Descriptor.Chars
       Descriptor.Kerning Common.ScaleW Common.ScaleH Common.Packed
       Common.AlphaChannel Common.RedChannel Common.GreenChannel
       Common.BlueChannel Descriptor.Rotate] in *.
  subst i' W' H' pk' a' r' g' b' p' kr'.
  assert (∀ k char, ch !! k = Some char →
            ∃ char', ch' !! k = Some char' ∧
                     Char.Width char' = Char.Width char) as Hfwd.
  { intros k char Hc. specialize (Hchars k). rewrite Hc in Hchars.
    destruct (ch' !! k) as [char'|]; [|done].
    exists char'. split; [done|].
    cbn [fmap option_fmap option_map] in Hchars.
    apply (inj Some) in Hchars.
    by apply (f_equal Char.Height) in Hchars. }
  assert (∀ k char', ch' !! k = Some char' →
            ∃ char, ch !! k = Some char ∧
                    Char.Width char' = Char.Width char) as Hbwd.
  { intros k char' Hc'. specialize (Hchars k). rewrite Hc' in Hchars.
    destruct (ch !! k) as [char|]; [|done].
    exists char. split; [done|].
    cbn [fmap option_fmap option_map] in Hchars.
    apply (inj Some) in Hchars.
    by apply (f_equal Char.Height) in Hchars. }
  assert ((Descriptor.Rotate_range H order' ch' 0).2 =
          (Descriptor.Rotate_range H order ch 0).2) as Elh.
  { apply Z.le_antisymm.
    - destruct Latt' as [->|(k & char' & Hc' & <-)]; [done|].
      destruct (Hbwd k char' Hc') as (char & Hc & ->). by apply (Lub k).
    - destruct Latt as [->|(k & char & Hc & <-)]; [done|].
      destruct (Hfwd k char Hc) as (char' & Hc' & <-). by apply (Lub' k). }
  assert ((Descriptor.Rotate_range H order' ch' 0).1 =
          (Descriptor.Rotate_range H order ch 0).1) as Ech.
  { rewrite E, E'. apply map_eq. intros k. rewrite !lookup_fmap. apply Hchars. }
  unfold Descriptor.Rotate.
  cbn [Descriptor.Info Descriptor.Common Descriptor.Pages Descriptor.Chars
       Descriptor.Kerning Common.ScaleW Common.ScaleH Common.Packed
       Common.AlphaChannel Common.RedChannel Common.GreenChannel
       Common.BlueChannel].
  by rewrite Elh, Ech.
Qed.

Lemma Rotate_four_Info order1 order2 order3 order4 d :
  Descriptor.Info (Descriptor.Rotate order4 (Descriptor.Rotate order3
    (Descriptor.Rotate order2 (Descriptor.Rotate order1 d)))) =
  Descriptor.Info d.
Proof.
  cbn [Descriptor.Rotate Descriptor.Info Info.Padding Info.Spacing
    Info.Face Info.Size Info.Bold Info.Italic Info.Charset Info.Unicode
    Info.StretchH Info.Smooth Info.AA Info.Outline Padding.Up Padding.Right
    Padding.Down Padding.Left Spacing.Horizontal Spacing.Vertical].
  by destruct (Descriptor.Info d) as [? ? ? ? ? ? ? ? ? [] [] ?].
Qed.

(** X6: after its first application [Rotate] has period four.  In a
    descriptor keyed by glyph id whose glyphs have a Go [int] for [x], five
    calls of [Rotate] give exactly the descriptor that one call gives, line
    metrics and advances included. *)
Theorem Rotate_five_times order1 order2 order3 order4 order5 d :
  Descriptor.keyed_by_id (Descriptor.Chars d) →
  (∀ k char, Descriptor.Chars d !! k = Some char → is_int (Char.X char)) →
  range_order (Descriptor.Chars d) order1 →
  range_order (Descriptor.Chars d) order2 →
  range_order (Descriptor.Chars d) order3 →
  range_order (Descriptor.Chars d) order4 →
  range_order (Descriptor.Chars d) order5 →
  Descriptor.Rotate order5 (Descriptor.Rotate order4 (Descriptor.Rotate order3
    (Descriptor.Rotate order2 (Descriptor.Rotate order1 d)))) =
  Descriptor.Rotate order1 d.
Proof.
  intros Hk Hint Ho1 Ho2 Ho3 Ho4 Ho5.
  destruct (Rotate_four_Chars order1 order2 order3 order4 d Hk Ho1 Ho2 Ho3 Ho4)
    as (Hk4 & Hr4 & Hchars).
  apply Rotate_ext; try done; auto using Rotate_four_Info.
  intros k. rewrite Hchars.
  destruct (Descriptor.Chars d !! k) as [char|] eqn:Hchar; [|done].
  cbn [fmap option_fmap option_map]. f_equal.
  specialize (Hint k char Hchar).
  destruct char as [id x y w h xo yo xa pg ch].
  unfold Descriptor.Rotate_char. cbn [Char.ID Char.X Char.Y Char.Width
    Char.Height Char.XOffset Char.YOffset Char.XAdvance Char.Page Char.Channel]
    in *.
  rewrite !int_sub_sub, wrap_sub_m, (wrap_id x) by done. reflexivity.
Qed.

Lemma Rotate_five_times_witness :
  Descriptor.Rotate [65] (Descriptor.Rotate [65] (Descriptor.Rotate [65]
    (Descriptor.Rotate [65] (Descriptor.Rotate [65] font_A)))) =
  Descriptor.Rotate [65] font_A.
Proof.
  apply (Rotate_five_times [65] [65] [65] [65] [65] font_A
           (keyed_by_id_singleton glyph_A)).
  - intros k char. unfold font_A, Descriptor.Chars.
    rewrite lookup_singleton_Some. intros [_ <-].
    unfold is_int, int_min, int_max, int_bits. cbn. lia.
  - apply range_order_singleton.
  - apply range_order_singleton.
  - apply range_order_singleton.
  - apply range_order_singleton.
  - apply range_order_singleton.
Defined.

(** * Further properties of the dump *)

Lemma pretty_N_go_no_space (x : N) : ∀ s,
  has_char " " (pretty_N_go x s) = has_char " " s.
Proof.
  induction (N.lt_wf_0 x) as [x _ IH]; intros s.
  assert (x = 0 ∨ 0 < x)%N as [->|Hpos] by lia.
  - by rewrite pretty_N_go_0.
  - rewrite pretty_N_go_step by done. rewrite IH by by apply N.div_lt.
    cbn [has_char]. unfold pretty_N_char. by repeat case_match.
Qed.

Lemma fmt_d_no_space z : has_char " " (fmt_d z) = false.
Proof.
  assert (∀ x : N, has_char " " (pretty x) = false) as HN.
  { intros x. unfold pretty, pretty_N. case_decide; [done|].
    by rewrite pretty_N_go_no_space. }
  unfold fmt_d, pretty, pretty_Z. destruct z as [|p|p]; [done|apply HN|].
  rewrite append_String, append_empty_l. cbn [has_char]. apply HN.
Qed.

(** Two texts without a space that are followed by a space end at the same
    place. *)
Lemma cut_at_space u : ∀ v r r',
  has_char " " u = false → has_char " " v = false →
  u +:+ String " " r = v +:+ String " " r' → u = v ∧ r = r'.
Proof.
  induction u as [|c u IH]; intros [|c' v] r r' Hu Hv;
    rewrite ?append_String, ?append_empty_l; intros Heq.
  - by injection Heq as ->.
  - injection Heq as <- _. cbn [has_char] in Hv.
    by rewrite Ascii.eqb_refl in Hv.
  - injection Heq as -> _. cbn [has_char] in Hu.
    by rewrite Ascii.eqb_refl in Hu.
  - injection Heq as -> Heq. cbn [has_char] in Hu, Hv.
    apply orb_false_elim in Hu as [_ Hu]. apply orb_false_elim in Hv as [_ Hv].
    destruct (IH v r r' Hu Hv Heq) as [-> ->]. done.
Qed.

(** A [%d] field followed by the label of the next field. *)
Lemma cut_field z1 z2 label r1 r2 :
  fmt_d z1 +:+ String " " label +:+ r1 = fmt_d z2 +:+ String " " label +:+ r2 →
  z1 = z2 ∧ r1 = r2.
Proof.
  rewrite !append_String. intros Heq.
  apply cut_at_space in Heq as [Hz Hr]; [|apply fmt_d_no_space..].
  split.
  - by apply (inj pretty) in Hz.
  - by apply String.app_inj in Hr.
Qed.

Lemma append_singleton_inj c s1 : ∀ s2,
  s1 +:+ String c EmptyString = s2 +:+ String c EmptyString → s1 = s2.
Proof.
  induction s1 as [|a s1 IH]; intros [|b s2];
    rewrite ?append_String, ?append_empty_l; intros Heq.
  - done.
  - injection Heq as _ Heq. by destruct s2.
  - injection Heq as _ Heq. by destruct s1.
  - injection Heq as -> Heq. by rewrite (IH s2 Heq).
Qed.

Lemma Char_String_eq char1 char2 :
  Char.String char1 = Char.String char2 → char1 = char2.
Proof.
  destruct char1 as [id1 x1 y1 w1 h1 xo1 yo1 xa1 pg1 ch1],
           char2 as [id2 x2 y2 w2 h2 xo2 yo2 xa2 pg2 ch2].
  unfold Char.String.
  cbn [Char.ID Char.X Char.Y Char.Width Char.Height Char.XOffset Char.YOffset
       Char.XAdvance Char.Page Char.Channel].
  intros H. apply String.app_inj in H.
  apply cut_field in H as [-> H]. apply cut_field in H as [-> H].
  apply cut_field in H as [-> H]. apply cut_field in H as [-> H].
  apply cut_field in H as [-> H]. apply cut_field in H as [-> H].
  apply cut_field in H as [-> H]. apply cut_field in H as [-> H].
  apply cut_field in H as [-> H]. apply (inj pretty) in H as ->.
  reflexivity.
Qed.

(** X7: the line of a glyph determines the glyph: two glyphs with the same
    [Char.String] have the same ten fields. *)
Theorem Char_String_inj char1 char2 :
  Char.String char1 = Char.String char2 → char1 = char2.
Proof. apply Char_String_eq. Qed.

Lemma Char_String_inj_witness :
  Descriptor.Rotate_char 128 (Descriptor.Rotate_char 256
    (Descriptor.Rotate_char 128 (Descriptor.Rotate_char 256 glyph_B))) =
  with_recomputed_advance glyph_B.
Proof.
  apply Char_String_inj. vm_compute. reflexivity.
Defined.

(** X8: the line of a page determines the page: two pages with the same
    [Page.String] have the same id and the same file name, whatever
    characters the file name holds. *)
Theorem Page_String_inj page1 page2 :
  Page.String page1 = Page.String page2 → page1 = page2.
Proof.
  destruct page1 as [id1 f1], page2 as [id2 f2]. unfold Page.String.
  cbn [Page.ID Page.File]. intros H. apply String.app_inj in H.
  apply cut_field in H as [-> H]. unfold dq in H.
  rewrite !append_String, !append_empty_l in H. injection H as H.
  by rewrite (append_singleton_inj _ _ _ H).
Qed.

Lemma Page_String_inj_witness :
  Page.mk (5 - 5) ("a" +:+ ".png") = Page.mk 0 "a.png".
Proof.
  apply Page_String_inj. vm_compute. reflexivity.
Defined.

Lemma append_id_l s : ∀ t, s = s +:+ t → t = EmptyString.
Proof.
  induction s as [|c s IH]; intros t; rewrite ?append_String, ?append_empty_l.
  - done.
  - intros [= Heq]. by apply IH.
Qed.

(** X9: the [info] line does not determine the [Info] record.  [face] and
    [charset] are written between double quotes as they are, so a double
    quote inside them moves the border between the fields: for every choice
    of the texts and of the two sizes and flags, the two records below differ
    and have the same [Info.String]. *)
Theorem Info_String_not_inj :
  ∀ face mid charset size1 size2 bold1 bold2 italic1 italic2
    unicode stretchH smooth aa padding spacing outline,
    let glue size bold italic :=
      dq +:+ " size=" +:+ fmt_d size
      +:+ " bold=" +:+ fmt_d (boolToInt bold)
      +:+ " italic=" +:+ fmt_d (boolToInt italic)
      +:+ " charset=" +:+ dq in
    let i1 :=
      Info.mk face size1 bold1 italic1
              (mid +:+ glue size2 bold2 italic2 +:+ charset)
              unicode stretchH smooth aa padding spacing outline in
    let i2 :=
      Info.mk (face +:+ glue size1 bold1 italic1 +:+ mid)
              size2 bold2 italic2 charset
              unicode stretchH smooth aa padding spacing outline in
    Info.String i1 = Info.String i2 ∧ i1 ≠ i2.
Proof.
  intros. split.
  - unfold i1, i2, glue, Info.String.
    cbn [Info.Face Info.Size Info.Bold Info.Italic Info.Charset Info.Unicode
         Info.StretchH Info.Smooth Info.AA Info.Padding Info.Spacing
         Info.Outline].
    rewrite !append_assoc. reflexivity.
  - unfold i1, i2. intros [= Hface _ _ _ _].
    apply append_id_l in Hface. unfold glue, dq in Hface.
    rewrite !append_String in Hface. discriminate Hface.
Qed.

(** * Loading and the command *)

(** X10: [LoadDescriptor] reports the first failure among opening, parsing
    and closing.  When [os.Open] fails it returns no descriptor and that
    error; otherwise it returns what the parser returns as descriptor, with
    the parser's error when there is one and else the error of [Close]: so it
    reports no error exactly when the three steps succeed, and when only
    [Close] fails it returns the descriptor together with the error. *)
Theorem LoadDescriptor_first_error
    (os_Open : string → error + File) (filepath_Base : string → string)
    (path : string) :
  (∀ err, os_Open path = inl err →
     LoadDescriptor os_Open filepath_Base path = (None, Some err)) ∧
  (∀ r cErr,
     os_Open path = inr (mkFile r cErr) →
     (LoadDescriptor os_Open filepath_Base path).1 =
       (parseDescriptor (filepath_Base path) r).1 ∧
     (LoadDescriptor os_Open filepath_Base path).2 =
       match (parseDescriptor (filepath_Base path) r).2 with
       | Some perr => Some perr
       | None => cErr
       end) ∧
  ((LoadDescriptor os_Open filepath_Base path).2 = None ↔
   ∃ r, os_Open path = inr (mkFile r None) ∧
        (parseDescriptor (filepath_Base path) r).2 = None).
Proof.
  unfold LoadDescriptor. split_and!.
  - by intros err ->.
  - intros r cErr ->. cbn [content close fst snd]. split; [done|].
    by destruct cErr, (parseDescriptor (filepath_Base path) r).2.
  - destruct (os_Open path) as [err|[r cErr]]; cbn [content close fst snd].
    + split; [done|]. by intros (r & [=] & _).
    + destruct (parseDescriptor (filepath_Base path) r).2 as [perr|] eqn:Hp.
      * split; [by destruct cErr|]. intros (r' & [= <- _] & Hp').
        by rewrite Hp in Hp'.
      * destruct cErr as [e|]; cbn [closeChecked].
        -- split; [done|]. by intros (r' & [=] & _).
        -- split; [|done]. intros _. by exists r.
Qed.

(** X11: the command prints a dump exactly when it is given a file name and
    opening, parsing and closing the file all succeed; the text is then the
    dump of the rotated descriptor followed by a line feed.  With fewer than
    two entries in [os.Args] it prints the usage line and exits with code 1
    without touching a file; and whenever [LoadDescriptor] reports an error
    it prints nothing and exits with code 1 on that error, also when a
    descriptor came with the error. *)
Theorem main_outcome
    (os_Open : string → error + File) (filepath_Base : string → string)
    (args : list string) (rorder porder corder : list Z) :
  ((length args < 2)%nat →
   main os_Open filepath_Base args rorder porder corder =
     Exit 1 ("Usage: bmrot <filename>" +:+ nl) None) ∧
  (∀ filename desc err,
     args !! 1%nat = Some filename →
     LoadDescriptor os_Open filepath_Base filename = (desc, Some err) →
     main os_Open filepath_Base args rorder porder corder =
       Exit 1 EmptyString (Some err)) ∧
  (∀ out,
     main os_Open filepath_Base args rorder porder corder = Exit 0 out None ↔
     ∃ filename r d,
       args !! 1%nat = Some filename ∧
       os_Open filename = inr (mkFile r None) ∧
       parseDescriptor (filepath_Base filename) r = (Some d, None) ∧
       out = Descriptor.String porder corder (Descriptor.Rotate rorder d)
             +:+ nl).
Proof.
  unfold main. split_and!.
  - intros Hlen. by rewrite decide_True.
  - intros filename desc err Hname Hload.
    assert (¬ (length args < 2)%nat) as Hlen.
    { apply lookup_lt_Some in Hname. lia. }
    rewrite decide_False, Hname, Hload by done. by destruct desc.
  - intros out. case_decide as Hlen.
    { split; [done|]. intros (filename & r & d & Hname & _).
      apply lookup_lt_Some in Hname. lia. }
    destruct (args !! 1%nat) as [filename|] eqn:Hname.
    2:{ split; [done|]. by intros (? & ? & ? & [=] & _). }
    unfold LoadDescriptor.
    destruct (os_Open filename) as [err|[r cErr]] eqn:Hopen;
      cbn [content close fst snd].
    { split; [done|]. intros (f & r & d & [= <-] & Hopen' & _).
      by rewrite Hopen in Hopen'. }
    destruct (parseDescriptor (filepath_Base filename) r) as [pd perr] eqn:Hp.
    cbn [fst snd].
    destruct perr as [perr|], cErr as [cErr|], pd as [d|];
      cbn [closeChecked]; unfold printDescriptor;
      try (split; [done|];
           intros (f & r' & d' & ? & ? & ? & _); congruence).
    split.
    + intros [= <-]. by exists filename, r, d.
    + intros (f & r' & d' & ? & ? & ? & ->). congruence.
Qed.

Lemma main_outcome_witness :
  main (one_file bad_stream) id ["bmrot"] [] [] [] =
    Exit 1 ("Usage: bmrot <filename>" +:+ nl) None ∧
  main (one_file bad_stream) id ["bmrot"; "font.fnt"] [] [] [] =
    Exit 1 EmptyString (Some (MalformedValue "font.fnt" 1 "char" "x")).
Proof.
  split.
  - apply (proj1 (main_outcome (one_file bad_stream) id ["bmrot"] [] [] [])).
    cbn. lia.
  - apply (proj1 (proj2 (main_outcome (one_file bad_stream) id
                           ["bmrot"; "font.fnt"] [] [] []))
             "font.fnt" None).
    + reflexivity.
    + vm_compute. reflexivity.
Defined.

(** * The glyph lines of a dump *)

Lemma elem_of_lines_of {V : Type} (line : V → string) (m : gmap Z V)
    (order : list Z) (l : string) :
  range_order m order →
  l ∈ lines_of line m order ↔ ∃ k v, m !! k = Some v ∧ line v = l.
Proof.
  intros Ho. unfold lines_of. rewrite list_elem_of_omap. split.
  - intros (k & _ & Hl). destruct (m !! k) as [v|] eqn:Hv; [|done].
    injection Hl as <-. by exists k, v.
  - intros (k & v & Hv & <-). exists k. split.
    + apply (range_order_elem _ _ k Ho). by eexists.
    + by rewrite Hv.
Qed.

(** X12: the glyph lines of a dump determine the glyph mapping.  Two glyph
    mappings keyed by glyph id whose loops emit the same lines, in whatever
    order, are the same mapping. *)
Theorem glyph_lines_determine_glyphs
    (chars1 chars2 : gmap Z Char.t) (order1 order2 : list Z) :
  Descriptor.keyed_by_id chars1 →
  Descriptor.keyed_by_id chars2 →
  range_order chars1 order1 →
  range_order chars2 order2 →
  lines_of Char.String chars1 order1 ≡ₚ lines_of Char.String chars2 order2 →
  chars1 = chars2.
Proof.
  intros Hk1 Hk2 Ho1 Ho2 Hlines.
  assert (∀ (m m' : gmap Z Char.t) o o',
            Descriptor.keyed_by_id m → Descriptor.keyed_by_id m' →
            range_order m o → range_order m' o' →
            lines_of Char.String m o ≡ₚ lines_of Char.String m' o' →
            ∀ k c, m !! k = Some c → m' !! k = Some c) as Hsub.
  { intros m m' o o' Hm Hm' Ho Ho' Hl k c Hc.
    assert (Char.String c ∈ lines_of Char.String m' o') as Hin.
    { rewrite <- Hl. apply (elem_of_lines_of _ _ _ _ Ho). by exists k, c. }
    apply (elem_of_lines_of _ _ _ _ Ho') in Hin as (k' & c' & Hc' & Heq).
    apply Char_String_eq in Heq as ->.
    by rewrite <- (Hm k c Hc), (Hm' k' c Hc'). }
  apply map_eq. intros k.
  destruct (chars1 !! k) as [c|] eqn:H1.
  - symmetry. by apply (Hsub chars1 chars2 order1 order2).
  - destruct (chars2 !! k) as [c|] eqn:H2; [|done].
    rewrite <- H1. by apply (Hsub chars2 chars1 order2 order1).
Qed.

Lemma glyph_lines_determine_glyphs_witness :
  Descriptor.Chars (Descriptor.Rotate [65; 66] font_AB) =
  Descriptor.Chars (Descriptor.Rotate [66; 65] font_AB).
Proof.
  apply (glyph_lines_determine_glyphs _ _ [65; 66] [66; 65]).
  - apply Rotate_keyed; [apply keyed_by_id_font_AB|apply range_order_font_AB_1].
  - apply Rotate_keyed; [apply keyed_by_id_font_AB|apply range_order_font_AB_2].
  - apply range_order_Rotate;
      auto using keyed_by_id_font_AB, range_order_font_AB_1.
  - apply range_order_Rotate;
      auto using keyed_by_id_font_AB, range_order_font_AB_2.
  - vm_compute. apply Permutation_swap.
Defined.
